(** * Event store, CockroachDB backend: append engine, query facade and
      placeholder translation

    Shallow embedding of [package sql] (type [CRDB]): the conditional insert
    statement [crdbInsert], [Push], [Filter], [query], the column, operator
    and format tables, and [placeholder]. *)

From Stdlib Require Import ZArith List String Ascii Bool Lia Permutation.
From Stdlib Require Import DecimalString.
Import ListNotations.

Local Open Scope Z_scope.
Local Open Scope string_scope.
Local Open Scope list_scope.

(** ** Machine integers *)

(** Go's [uint64] and [int64] as integers with their wrap-around. *)
Definition to_uint64 (z : Z) : Z := z mod 2 ^ 64.
Definition to_int64 (z : Z) : Z := (z + 2 ^ 63) mod 2 ^ 64 - 2 ^ 63.

(** ** Classified errors ([caos_errs]) *)

Inductive Kind : Type :=
| InvalidArgument
| PreconditionFailed
| Internal.

(** A Go [error] value as this package meets it: [sql.ErrNoRows], any other
    error of [database/sql] or of the driver, or a classified error carrying
    its kind, its optional parent, an id and a message. *)
#[warnings="-register-all"]
Inductive error : Type :=
| ErrNoRows
| ErrDriver (msg : string)
| CaosError (kind : Kind) (parent : option error) (id message : string).

Definition ThrowInternal (parent : option error) (id message : string) : error :=
  CaosError Internal parent id message.
Definition ThrowPreconditionFailed (parent : option error) (id message : string) : error :=
  CaosError PreconditionFailed parent id message.
Definition ThrowInvalidArgument (parent : option error) (id message : string) : error :=
  CaosError InvalidArgument parent id message.

(** Modelled from the spec: the package [caos_errs] is not part of the
    sources at hand.  [errors.Is(err, &caos_errs.CaosError{})] is read as the
    spec's design note has it, "is this already one of our classified
    kinds". *)
Definition is_CaosError (e : error) : bool :=
  match e with
  | CaosError _ _ _ _ => true
  | _ => false
  end.

Definition kind_of (e : error) : option Kind :=
  match e with
  | CaosError k _ _ _ => Some k
  | _ => None
  end.

(** ** Events ([repository.Event]) *)

(** Events are handled through pointers; an address stands for a non-nil
    [*repository.Event].  The struct is declared in package [repository],
    outside the sources at hand: its fields are those [Push] reads and
    assigns. *)
Definition Addr : Type := nat.

(** [time.Time] as an offset from Go's zero time, so that [IsZero] is a test
    against 0. *)
Definition Time : Type := Z.
Definition IsZero (t : Time) : bool := (t =? 0)%Z.

Record Event : Type := mkEvent {
  ID : string;
  Sequence : Z;                      (* uint64 *)
  PreviousSequence : Z;              (* uint64 *)
  PreviousEvent : option Addr;       (* *Event, nil = None *)
  CreationDate : Time;
  Type_ : string;
  Data : string;
  EditorService : string;
  EditorUser : string;
  Version : string;
  AggregateID : string;
  AggregateType : string;
  ResourceOwner : string;
  CheckPreviousSequence : bool
}.

Definition set_ID (v : string) (e : Event) : Event :=
  mkEvent v (Sequence e) (PreviousSequence e) (PreviousEvent e) (CreationDate e)
    (Type_ e) (Data e) (EditorService e) (EditorUser e) (Version e)
    (AggregateID e) (AggregateType e) (ResourceOwner e) (CheckPreviousSequence e).
Definition set_Sequence (v : Z) (e : Event) : Event :=
  mkEvent (ID e) v (PreviousSequence e) (PreviousEvent e) (CreationDate e)
    (Type_ e) (Data e) (EditorService e) (EditorUser e) (Version e)
    (AggregateID e) (AggregateType e) (ResourceOwner e) (CheckPreviousSequence e).
Definition set_PreviousSequence (v : Z) (e : Event) : Event :=
  mkEvent (ID e) (Sequence e) v (PreviousEvent e) (CreationDate e)
    (Type_ e) (Data e) (EditorService e) (EditorUser e) (Version e)
    (AggregateID e) (AggregateType e) (ResourceOwner e) (CheckPreviousSequence e).
Definition set_CreationDate (v : Time) (e : Event) : Event :=
  mkEvent (ID e) (Sequence e) (PreviousSequence e) (PreviousEvent e) v
    (Type_ e) (Data e) (EditorService e) (EditorUser e) (Version e)
    (AggregateID e) (AggregateType e) (ResourceOwner e) (CheckPreviousSequence e).

(** The store of event structs the caller's pointers refer to. *)
Definition Heap : Type := Addr -> Event.

Definition store (h : Heap) (a : Addr) (e : Event) : Heap :=
  fun b => if Nat.eqb b a then e else h b.

(** Modelled from the spec: the type [Sequence] (a [uint64] with the driver's
    [Value] and [Scan] conversions) is declared outside the sources at hand.
    The spec's "previousSequence absent" is the zero sequence, which is bound
    as NULL; any other is bound as a BIGINT. *)
Definition Sequence_Value (seq : Z) : option Z :=
  if (seq =? 0)%Z then None else Some (to_int64 seq).

(** Modelled from the spec: the decoding of [Sequence], also outside the
    sources at hand.  A nullable integer decodes to the zero sequence when it
    is NULL. *)
Definition Sequence_Scan (v : option Z) : Z :=
  match v with
  | None => 0%Z
  | Some n => to_uint64 n
  end.

(** ** SQL values and three-valued logic *)

(** A nullable SQL value is an [option]; a condition evaluates to TRUE, FALSE
    or NULL. *)
Definition sqlbool : Type := option bool.

Definition sql_and (a b : sqlbool) : sqlbool :=
  match a, b with
  | Some false, _ | _, Some false => Some false
  | Some true, Some true => Some true
  | _, _ => None
  end.
Definition sql_or (a b : sqlbool) : sqlbool :=
  match a, b with
  | Some true, _ | _, Some true => Some true
  | Some false, Some false => Some false
  | _, _ => None
  end.
Definition sql_eq (a b : option Z) : sqlbool :=
  match a, b with
  | Some x, Some y => Some (x =? y)%Z
  | _, _ => None
  end.
Definition sql_is_null {A} (a : option A) : sqlbool :=
  match a with None => Some true | Some _ => Some false end.
Definition sql_is_not_null {A} (a : option A) : sqlbool :=
  match a with None => Some false | Some _ => Some true end.
Definition sql_coalesce {A} (a : option A) (d : A) : A :=
  match a with Some x => x | None => d end.
(** A WHERE clause keeps a row only when its condition is TRUE. *)
Definition sql_holds (c : sqlbool) : bool :=
  match c with Some true => true | _ => false end.

(** ** The table [eventstore.events] and the statement [crdbInsert] *)

Record Row : Type := mkRow {
  id : string;
  event_sequence : Z;
  event_type : string;
  aggregate_type : string;
  aggregate_id : string;
  aggregate_version : string;
  creation_date : Time;
  event_data : string;
  editor_user : string;
  editor_service : string;
  resource_owner : string;
  previous_sequence : option Z
}.

Definition Table : Type := list Row.

(** The eleven bound arguments, [$1] to [$11], in order. *)
Record InsertArgs : Type := mkArgs {
  arg_event_type : string;               (* $1 *)
  arg_aggregate_type : string;           (* $2 *)
  arg_aggregate_id : string;             (* $3 *)
  arg_aggregate_version : string;        (* $4 *)
  arg_creation_date : option Time;       (* $5, sql.NullTime *)
  arg_event_data : string;               (* $6 *)
  arg_editor_user : string;              (* $7 *)
  arg_editor_service : string;           (* $8 *)
  arg_resource_owner : string;           (* $9 *)
  arg_previous_sequence : option Z;      (* $10 *)
  arg_check_previous : bool              (* $11 *)
}.

(** What the server supplies while it runs one statement: the column defaults
    for [id] and [event_sequence] (their DDL is outside the sources at hand)
    and the value of [NOW()]. *)
Record Assigned : Type := mkAssigned {
  new_id : string;
  new_sequence : Z;
  now : Time
}.

(** [MAX(event_sequence)] over the rows of one aggregate; NULL when there is
    none. *)
Definition max_event_seq (tbl : Table) (aty aid : string) : option Z :=
  fold_left
    (fun acc r =>
       if (aggregate_type r =? aty) && (aggregate_id r =? aid)
       then Some (match acc with
                  | None => event_sequence r
                  | Some m => Z.max m (event_sequence r)
                  end)
       else acc)
    tbl None.

(** The single row of the derived table [input_event]. *)
Record InputEvent : Type := mkInput {
  ie_event_type : string;
  ie_aggregate_type : string;
  ie_aggregate_id : string;
  ie_aggregate_version : string;
  ie_creation_date : Time;
  ie_event_data : string;
  ie_editor_user : string;
  ie_editor_service : string;
  ie_resource_owner : string;
  ie_previous_sequence : option Z;
  ie_check_previous : bool;
  ie_max_event_seq : option Z
}.

Definition input_event (srv : Assigned) (tbl : Table) (p : InsertArgs) : InputEvent :=
  mkInput (arg_event_type p) (arg_aggregate_type p) (arg_aggregate_id p)
    (arg_aggregate_version p)
    (sql_coalesce (arg_creation_date p) (now srv))
    (arg_event_data p) (arg_editor_user p) (arg_editor_service p)
    (arg_resource_owner p) (arg_previous_sequence p) (arg_check_previous p)
    (max_event_seq tbl (arg_aggregate_type p) (arg_aggregate_id p)).

(** [(max_event_seq IS NULL AND previous_sequence IS NULL) OR
     (max_event_seq IS NOT NULL AND max_event_seq = previous_sequence)] *)
Definition sequence_matches (ie : InputEvent) : sqlbool :=
  sql_or
    (sql_and (sql_is_null (ie_max_event_seq ie)) (sql_is_null (ie_previous_sequence ie)))
    (sql_and (sql_is_not_null (ie_max_event_seq ie))
             (sql_eq (ie_max_event_seq ie) (ie_previous_sequence ie))).

(** [CASE WHEN NOT check_previous THEN 1 ELSE (SELECT 1 FROM input_event
    WHERE ...) END]: the scalar subquery is NULL when its WHERE drops the
    row. *)
Definition insert_case (ie : InputEvent) : option Z :=
  if negb (ie_check_previous ie) then Some 1%Z
  else if sql_holds (sequence_matches ie) then Some 1%Z else None.

(** [WHERE 1 = CASE ... END] *)
Definition insert_where (ie : InputEvent) : bool :=
  sql_holds (sql_eq (Some 1%Z) (insert_case ie)).

(** The row the INSERT projects from [input_event]. *)
Definition inserted_row (srv : Assigned) (ie : InputEvent) : Row :=
  mkRow (new_id srv) (new_sequence srv)
    (ie_event_type ie) (ie_aggregate_type ie) (ie_aggregate_id ie)
    (ie_aggregate_version ie)
    (sql_coalesce (Some (ie_creation_date ie)) (now srv))
    (ie_event_data ie) (ie_editor_user ie) (ie_editor_service ie)
    (ie_resource_owner ie)
    (if negb (ie_check_previous ie) then None else ie_previous_sequence ie).

(** [RETURNING id, event_sequence, previous_sequence, creation_date] *)
Record Returning : Type := mkReturning {
  ret_id : string;
  ret_event_sequence : Z;
  ret_previous_sequence : option Z;
  ret_creation_date : Time
}.

Definition returning (r : Row) : Returning :=
  mkReturning (id r) (event_sequence r) (previous_sequence r) (creation_date r).

(** One execution of [crdbInsert]: the table afterwards and the returned row,
    if any. *)
Definition crdbInsert (srv : Assigned) (tbl : Table) (p : InsertArgs)
  : Table * option Returning :=
  let ie := input_event srv tbl p in
  if insert_where ie
  then let r := inserted_row srv ie in (tbl ++ [r], Some (returning r))
  else (tbl, None).

(** ** The append engine: [Push] *)

(** The database side of one [Push] call.  The failures are inputs:
    [begin_fault] makes [crdb.ExecuteTx] fail before it calls its function
    ([BeginTx], or the savepoint it sets), [prepare_fault] makes
    [PrepareContext] fail, [statement_fault i] makes the statement of the
    i-th event of the batch fail before it touches the table, and
    [commit_fault] makes the release of the savepoint, which commits, fail.
    [assigned i] is what the server supplies to the statement of the i-th
    event. *)
Record Backend : Type := mkBackend {
  begin_fault : option error;
  prepare_fault : option error;
  statement_fault : nat -> option error;
  assigned : nat -> Assigned;
  commit_fault : option error
}.

(** Where the goroutine of one event stands: not yet run; about to execute
    the statement (line 131) with its local [previousSequence]; back from
    [Scan] (line 146) with its local [previousSequence]; past the test of
    [err] (line 150), which it found not nil, and about to send; or
    returned. *)
Inductive Goroutine : Type :=
| Started
| Resolved (previousSequence : Z)
| Scanned (previousSequence : Z)
| Reporting
| Returned.

(** What the goroutines of one transaction share: the event structs, the
    table as the transaction sees it, the buffered channel [errs], and the
    variable [err] of the enclosing function, which every goroutine assigns
    (line 131), tests (line 150) and reads again when it wraps it (line 156).
    [goroutines i] is the state of the goroutine started for the i-th
    event. *)
Record TxState : Type := mkTx {
  heap : Heap;
  table : Table;
  errs : list error;
  err : option error;
  goroutines : nat -> Goroutine
}.

Definition set_goroutine (gs : nat -> Goroutine) (i : nat) (g : Goroutine)
  : nat -> Goroutine :=
  fun j => if Nat.eqb j i then g else gs j.

(** The arguments bound by [stmt.QueryRowContext]; the conversion
    [Data(event.Data)] is taken to pass the payload through. *)
Definition insertArgs (event : Event) (previousSequence : Z) : InsertArgs :=
  mkArgs (Type_ event) (AggregateType event) (AggregateID event) (Version event)
    (if negb (IsZero (CreationDate event)) then Some (CreationDate event) else None)
    (Data event) (EditorUser event) (EditorService event) (ResourceOwner event)
    (Sequence_Value previousSequence)
    (CheckPreviousSequence event).

(** Lines 123 to 130: the previous sequence a goroutine binds, or [None] when
    the linked event belongs to another aggregate. *)
Definition resolvePrevious (h : Heap) (event : Event) : option Z :=
  match PreviousEvent event with
  | Some p =>
      if negb (AggregateType (h p) =? AggregateType event)
         || negb (AggregateID (h p) =? AggregateID event)
      then None
      else Some (Sequence (h p))
  | None => Some (PreviousSequence event)
  end.

(** [stmt.QueryRowContext(...).Scan(...)]: the returned row, [sql.ErrNoRows]
    when the statement returns none, or the error of the execution.  The
    returned columns are taken to fit their destinations (the sequence is a
    non-negative BIGINT). *)
Definition QueryRowContext (be : Backend) (i : nat) (tbl : Table) (args : InsertArgs)
  : Table * (Returning + error) :=
  match statement_fault be i with
  | Some e => (tbl, inr e)
  | None =>
      match crdbInsert (assigned be i) tbl args with
      | (tbl', Some r) => (tbl', inl r)
      | (tbl', None) => (tbl', inr ErrNoRows)
      end
  end.

(** One uninterrupted stretch of the goroutine of the i-th event, whose
    struct is at [a]; a stretch ends before the goroutine reads again what
    other goroutines assign.  From [Started] it runs lines 123 to 130: it
    resolves the previous sequence, and returns with the precondition failure
    when the aggregates differ.  From [Resolved] it runs lines 131 to 146: it
    executes the statement with the fields of the event as they are now,
    scans the returned row into the event and assigns the result to the
    shared [err].  From [Scanned] it runs lines 148 to 150: it assigns
    [PreviousSequence] and tests the shared [err] as it is at that moment.
    From [Reporting] it runs lines 151 to 156: it wraps the shared [err] as
    it is at that moment, nil or not, and sends the error. *)
Definition pushStep (be : Backend) (st : TxState) (task : nat * Addr) : TxState :=
  let '(i, a) := task in
  let event := heap st a in
  match goroutines st i with
  | Started =>
      match resolvePrevious (heap st) event with
      | None =>
          mkTx (heap st) (table st)
            (errs st ++ [ThrowPreconditionFailed None "SQL-J55uR"
                           "aggregate of linked events unequal"])
            (err st) (set_goroutine (goroutines st) i Returned)
      | Some previousSequence =>
          mkTx (heap st) (table st) (errs st) (err st)
            (set_goroutine (goroutines st) i (Resolved previousSequence))
      end
  | Resolved previousSequence =>
      match QueryRowContext be i (table st) (insertArgs event previousSequence) with
      | (tbl', inl r) =>
          let event := set_ID (ret_id r) event in
          let event := set_Sequence (ret_event_sequence r) event in
          let previousSequence := Sequence_Scan (ret_previous_sequence r) in
          let event := set_CreationDate (ret_creation_date r) event in
          mkTx (store (heap st) a event) tbl' (errs st) None
            (set_goroutine (goroutines st) i (Scanned previousSequence))
      | (tbl', inr e) =>
          mkTx (heap st) tbl' (errs st) (Some e)
            (set_goroutine (goroutines st) i (Scanned previousSequence))
      end
  | Scanned previousSequence =>
      let event := set_PreviousSequence previousSequence event in
      mkTx (store (heap st) a event) (table st) (errs st) (err st)
        (set_goroutine (goroutines st) i
           (match err st with
            | Some _ => Reporting
            | None => Returned
            end))
  | Reporting =>
      mkTx (heap st) (table st)
        (errs st ++ [ThrowInternal (err st) "SQL-SBP37" "unable to create event"])
        (err st) (set_goroutine (goroutines st) i Returned)
  | Returned => st
  end.

(** The order in which the goroutines run is not fixed by the program: each
    element of [choices] picks the next stretch among those still pending. *)
Fixpoint remove_nth {A} (k : nat) (l : list A) : list A :=
  match l, k with
  | [], _ => []
  | _ :: t, O => t
  | x :: t, S k' => x :: remove_nth k' t
  end.

Fixpoint schedule {A} (n : nat) (choices : list nat) (pending : list A) : list A :=
  match n, pending with
  | S n', x :: _ =>
      let k := (hd 0 choices mod List.length pending)%nat in
      nth k pending x :: schedule n' (tl choices) (remove_nth k pending)
  | _, _ => []
  end.

(** One goroutine per event of the batch, numbered by position. *)
Definition tasks (events : list Addr) : list (nat * Addr) :=
  combine (seq 0 (List.length events)) events.

(** Every goroutine has at most four stretches to run and gets four slots;
    each slot runs the stretch its goroutine has come to. *)
Definition run_order (choices : list nat) (events : list Addr) : list (nat * Addr) :=
  schedule (4 * List.length events) choices
    (tasks events ++ tasks events ++ tasks events ++ tasks events).

(** [wg.Wait()]: every goroutine has run. *)
Definition run_tasks (be : Backend) (order : list (nat * Addr)) (st : TxState) : TxState :=
  fold_left (pushStep be) order st.

(** The state in which the goroutines are started: [PrepareContext] has
    returned a nil [err] and the channel is empty. *)
Definition start (h : Heap) (tbl : Table) : TxState :=
  mkTx h tbl [] None (fun _ => Started).

(** The function handed to [crdb.ExecuteTx]: prepare, fan out, wait, and
    return the first error found in [errs]. *)
Definition pushTx (be : Backend) (choices : list nat) (events : list Addr)
  (tbl : Table) (h : Heap) : option error * Table * Heap :=
  match prepare_fault be with
  | Some e => (Some (ThrowInternal (Some e) "SQL-OdXRE" "prepare failed"), tbl, h)
  | None =>
      let st := run_tasks be (run_order choices events) (start h tbl) in
      (hd_error (errs st), table st, heap st)
  end.

(** [crdb.ExecuteTx]: begin, run [fn], roll back when it returns an error and
    commit otherwise; an error of the library itself, before [fn] or at the
    commit, is returned as it is and nothing is committed.  The library
    retries serialization conflicts by itself; that policy is outside the
    specification, and the faults of [Backend] are those it gives up on.
    Event structs are memory of the caller and are not restored by a
    rollback. *)
Definition ExecuteTx (be : Backend) (tbl : Table) (h : Heap)
  (fn : Table -> Heap -> option error * Table * Heap)
  : option error * Table * Heap :=
  match begin_fault be with
  | Some e => (Some e, tbl, h)
  | None =>
      let '(failure, tbl', h') := fn tbl h in
      match failure with
      | Some e => (Some e, tbl, h')
      | None =>
          match commit_fault be with
          | Some e => (Some e, tbl, h')
          | None => (None, tbl', h')
          end
      end
  end.

(** Lines 168 to 170: an error that is not a classified one already is
    wrapped. *)
Definition storeError (e : error) : error :=
  if negb (is_CaosError e)
  then ThrowInternal (Some e) "SQL-DjgtG" "unable to store events"
  else e.

(** [Push]: the error returned ([None] is nil), the committed table and the
    event structs afterwards. *)
Definition Push (be : Backend) (choices : list nat) (tbl : Table) (h : Heap)
  (events : list Addr) : option error * Table * Heap :=
  let '(failure, tbl', h') := ExecuteTx be tbl h (pushTx be choices events) in
  let failure :=
    match failure with
    | Some e => Some (storeError e)
    | None => None
    end in
  (failure, tbl', h').
(** ** The placeholder translator *)

(** [placeholder.FindAllStringIndex(query, -1)] for the pattern [\?]: the
    [start, end) byte offsets of the successive matches, left to right. *)
Fixpoint find_marker (pos : nat) (s : string) : list (nat * nat) :=
  match s with
  | EmptyString => []
  | String c s' =>
      if Ascii.eqb c "?" then (pos, S pos) :: find_marker (S pos) s'
      else find_marker (S pos) s'
  end.

Definition FindAllStringIndex (query : string) : list (nat * nat) :=
  find_marker 0 query.

(** The slice expression [s[lo:hi]]. *)
Definition slice (s : string) (lo hi : nat) : string := substring lo (hi - lo) s.

(** [strconv.Itoa] on a non-negative [int]. *)
Definition Itoa (n : nat) : string := NilZero.string_of_uint (Nat.to_uint n).

(** The [for i, l := range occurances] loop, from index [i] on. *)
Fixpoint placeholder_loop (query : string) (occurances : list (nat * nat))
  (i : nat) (rest : list (nat * nat)) (replaced : string) : string :=
  match rest with
  | [] => replaced
  | l :: rest' =>
      let nextIDX :=
        if (i <? List.length occurances - 1)%nat
        then fst (nth (i + 1) occurances (0, 0)%nat)
        else String.length query in
      placeholder_loop query occurances (S i) rest'
        (replaced ++ "$" ++ Itoa (i + 1) ++ slice query (snd l) nextIDX)%string
  end.

Definition placeholder (query : string) : string :=
  let occurances := FindAllStringIndex query in
  if (List.length occurances =? 0)%nat then query
  else
    let replaced := slice query 0 (fst (nth 0 occurances (0, 0)%nat)) in
    placeholder_loop query occurances 0 occurances replaced.

(** The translation as the specification words it: reading left to right,
    the i-th marker becomes ["$i"], every other character is kept. *)
Fixpoint renumber (i : nat) (s : string) : string :=
  match s with
  | EmptyString => EmptyString
  | String c s' =>
      if Ascii.eqb c "?" then ("$" ++ Itoa i ++ renumber (S i) s')%string
      else String c (renumber i s')
  end.

Fixpoint count_marker (s : string) : nat :=
  match s with
  | EmptyString => 0
  | String c s' => ((if Ascii.eqb c "?" then 1 else 0) + count_marker s')%nat
  end.

(** ** Search queries and the tables of the backend *)

(** [repository.Field] and [repository.Operation] are integer enumerations;
    the last constructor stands for any value that is none of the named
    constants. *)
Inductive Field : Type :=
| FieldAggregateType
| FieldAggregateID
| FieldSequence
| FieldResourceOwner
| FieldEditorService
| FieldEditorUser
| FieldEventType
| FieldOther (code : Z).

Inductive Operation : Type :=
| OperationEquals
| OperationGreater
| OperationLess
| OperationIn
| OperationOther (code : Z).

Definition recognized (col : Field) : bool :=
  match col with
  | FieldOther _ => false
  | _ => true
  end.

Definition eventQuery : string :=
  "SELECT" ++
  " creation_date" ++
  ", event_type" ++
  ", event_sequence" ++
  ", previous_sequence" ++
  ", event_data" ++
  ", editor_service" ++
  ", editor_user" ++
  ", resource_owner" ++
  ", aggregate_type" ++
  ", aggregate_id" ++
  ", aggregate_version" ++
  " FROM eventstore.events".

Definition maxSequenceQuery : string :=
  "SELECT MAX(event_sequence) FROM eventstore.events".

Definition columnName (col : Field) : string :=
  match col with
  | FieldAggregateID => "aggregate_id"
  | FieldAggregateType => "aggregate_type"
  | FieldSequence => "event_sequence"
  | FieldResourceOwner => "resource_owner"
  | FieldEditorService => "editor_service"
  | FieldEditorUser => "editor_user"
  | FieldEventType => "event_type"
  | _ => ""
  end.

Definition conditionFormat (operation : Operation) : string :=
  match operation with
  | OperationIn => "%s %s ANY(?)"
  | _ => "%s %s ?"
  end.

Definition operation (operation : Operation) : string :=
  match operation with
  | OperationEquals | OperationIn => "="
  | OperationGreater => ">"
  | OperationLess => "<"
  | _ => ""
  end.

(** A value bound to a query or found in a column of a result row. *)
Inductive SqlValue : Type :=
| VNull
| VInt (n : Z)
| VText (s : string)
| VTime (t : Time)
| VArray (l : list string).

(** Modelled from the spec: [repository.SearchQuery] is declared outside the
    sources at hand.  A query is an ordered list of conditions (field,
    operator, value) and an intent: fetch the matching events, or only the
    maximum sequence. *)
Inductive Intent : Type :=
| FetchEvents
| FetchMaxSequence.

(** Modelled from the spec: one condition of a search query. *)
Record Condition : Type := mkCondition {
  cond_field : Field;
  cond_operation : Operation;
  cond_value : SqlValue
}.

(** Modelled from the spec: the search query itself. *)
Record SearchQuery : Type := mkSearchQuery {
  intent : Intent;
  conditions : list Condition
}.

(** What [dest interface{}] points to: the slice of events of [Filter]
    ([None] is the nil slice) or the sequence of [LatestSequence]. *)
Inductive Dest : Type :=
| DestEvents (events : option (list Event))
| DestSequence (seq : Z).

Definition Scanner : Type := list SqlValue -> Dest -> option error * Dest.

(** [fmt.Sprintf] for formats whose only verb is [%s]. *)
Fixpoint Sprintf (format : string) (args : list string) : string :=
  match format with
  | EmptyString => EmptyString
  | String c rest =>
      match rest with
      | String "s" rest' =>
          if Ascii.eqb c "%"
          then match args with
               | a :: args' => (a ++ Sprintf rest' args')%string
               | [] => ("%!s(MISSING)" ++ Sprintf rest' [])%string
               end
          else String c (Sprintf rest args)
      | _ => String c (Sprintf rest args)
      end
  end.

Definition join (sep : string) (l : list string) : string :=
  match l with
  | [] => EmptyString
  | x :: t => fold_left (fun acc y => (acc ++ sep ++ y)%string) t x
  end.

(** Modelled from the spec: the row decoders are part of the query builder,
    which is outside the sources at hand.  For "fetch events" one full row,
    in the column order of [eventQuery], is decoded into an event and
    appended to the result; a row that does not decode is an [Internal]
    failure. *)
Definition eventRowScanner : Scanner :=
  fun row dest =>
    match row, dest with
    | [VTime cd; VText ty; VInt sq; prev; VText data; VText es; VText eu;
       VText ro; VText aty; VText aid; VText ver], DestEvents events =>
        match prev with
        | VNull | VInt _ =>
            let previous :=
              Sequence_Scan (match prev with VInt n => Some n | _ => None end) in
            let e := mkEvent "" sq previous None cd ty data es eu ver aid aty ro false in
            (None, DestEvents (Some (match events with
                                     | Some l => l ++ [e]
                                     | None => [e]
                                     end)))
        | _ => (Some (ThrowInternal None "" "unable to scan row"), dest)
        end
    | _, _ => (Some (ThrowInternal None "" "unable to scan row"), dest)
    end.

(** Modelled from the spec: for "latest sequence" a single nullable integer
    is decoded, the zero sequence standing for NULL. *)
Definition maxSequenceRowScanner : Scanner :=
  fun row dest =>
    match row, dest with
    | [VNull], DestSequence _ => (None, DestSequence (Sequence_Scan None))
    | [VInt n], DestSequence _ => (None, DestSequence (Sequence_Scan (Some n)))
    | _, _ => (Some (ThrowInternal None "" "unable to scan row"), dest)
    end.

(** Modelled from the spec: one condition rendered through the three tables;
    a field without a column name makes the builder fail. *)
Definition getCondition (c : Condition) : string :=
  let field := columnName (cond_field c) in
  if (field =? "")%string then ""
  else Sprintf (conditionFormat (cond_operation c)) [field; operation (cond_operation c)].

(** Modelled from the spec: [buildQuery] is outside the sources at hand.  It
    selects the base projection by intent, renders each condition in the
    order given, joins them with AND under WHERE (no condition: the base
    query alone), translates the placeholders, and returns the bound values
    and the decoder of the intent.  An unknown field yields the empty SQL. *)
Definition buildQuery (searchQuery : SearchQuery)
  : string * list SqlValue * Scanner :=
  let '(base, rowScanner) :=
    match intent searchQuery with
    | FetchEvents => (eventQuery, eventRowScanner)
    | FetchMaxSequence => (maxSequenceQuery, maxSequenceRowScanner)
    end in
  let clauses := map getCondition (conditions searchQuery) in
  if existsb (fun clause => (clause =? "")%string) clauses
  then ("", [], rowScanner)
  else
    let where_ :=
      match clauses with
      | [] => ""
      | _ => (" WHERE " ++ join " AND " clauses)%string
      end in
    (placeholder (base ++ where_), map cond_value (conditions searchQuery), rowScanner).

(** ** The store facade: [query], [Filter], [LatestSequence] *)

(** [db.client.Query]: the rows of the result set, or the error of the
    driver. *)
Definition Client : Type := string -> list SqlValue -> list (list SqlValue) + error.

(** Every call of the client is recorded, with its statement and values. *)
Definition IOLog : Type := list (string * list SqlValue).

(** The [for rows.Next()] loop. *)
Fixpoint scan_rows (rowScanner : Scanner) (rows : list (list SqlValue)) (dest : Dest)
  : option error * Dest :=
  match rows with
  | [] => (None, dest)
  | row :: rows' =>
      match rowScanner row dest with
      | (Some err, dest') => (Some err, dest')
      | (None, dest') => scan_rows rowScanner rows' dest'
      end
  end.

Section Facade.

(** The query builder the facade calls; [buildQuery] above is the one the
    specification describes. *)
Variable build : SearchQuery -> string * list SqlValue * Scanner.

Definition query (client : Client) (searchQuery : SearchQuery) (dest : Dest)
  : option error * Dest * IOLog :=
  let '(query, values, rowScanner) := build searchQuery in
  if (query =? "")%string
  then (Some (ThrowInvalidArgument None "SQL-rWeBw" "invalid query factory"), dest, [])
  else
    match client query values with
    | inr err =>
        (Some (ThrowInternal (Some err) "SQL-IJuyR" "unable to filter events"),
         dest, [(query, values)])
    | inl rows =>
        let '(err, dest') := scan_rows rowScanner rows dest in
        (err, dest', [(query, values)])
    end.

(** [Filter]: the returned slice ([None] is nil), the returned error, and
    the calls made to the client. *)
Definition Filter (client : Client) (searchQuery : SearchQuery)
  : option (list Event) * option error * IOLog :=
  let events := Some [] in
  let '(err, dest, io) := query client searchQuery (DestEvents events) in
  let events := match dest with DestEvents l => l | _ => events end in
  match err with
  | Some e => (None, Some e, io)
  | None => (events, None, io)
  end.

Definition LatestSequence (client : Client) (searchQuery : SearchQuery)
  : Z * option error * IOLog :=
  let seq := 0%Z in
  let '(err, dest, io) := query client searchQuery (DestSequence seq) in
  let seq := match dest with DestSequence s => s | _ => seq end in
  match err with
  | Some e => (0%Z, Some e, io)
  | None => (to_uint64 seq, None, io)
  end.

End Facade.

(** ** Notions used to state the properties *)

(** A row belongs to the aggregate (type, id). *)
Definition of_aggregate (aty aid : string) (r : Row) : Prop :=
  aggregate_type r = aty /\ aggregate_id r = aid.

(** [m] is the greatest sequence recorded for the aggregate. *)
Definition is_max_sequence (tbl : Table) (aty aid : string) (m : Z) : Prop :=
  (exists r, In r tbl /\ of_aggregate aty aid r /\ event_sequence r = m) /\
  (forall r, In r tbl -> of_aggregate aty aid r -> (event_sequence r <= m)%Z).

(** The part of an event that [Push] reads and never assigns. *)
Definition payload (e : Event) :=
  (Type_ e, Data e, EditorService e, EditorUser e, Version e,
   AggregateID e, AggregateType e, ResourceOwner e,
   CheckPreviousSequence e, PreviousEvent e).

(** What [Scan] assigns to the event (line 146). *)
Definition scanned_into (r : Returning) (e : Event) : Event :=
  set_CreationDate (ret_creation_date r)
    (set_Sequence (ret_event_sequence r) (set_ID (ret_id r) e)).

(** The event once its goroutine has returned after a successful statement. *)
Definition written_back (r : Returning) (e : Event) : Event :=
  set_PreviousSequence (Sequence_Scan (ret_previous_sequence r)) (scanned_into r e).

(** A running order without interleaving: each goroutine runs its four
    slots in a row. *)
Definition serial (ts : list (nat * Addr)) : list (nat * Addr) :=
  flat_map (fun t => [t; t; t; t]) ts.

(** ** Sample batches and backends *)

(** A first event of aggregate (user, agg1), with the check enabled and no
    previous sequence. *)
Definition first_event : Event :=
  mkEvent "" 0 0 None 0 "user.added" "{}" "svc" "usr" "v1" "agg1" "user" "org" true.

(** The same event, claiming that sequence 5 is current. *)
Definition stale_event : Event := set_PreviousSequence 5 first_event.

Definition foreign_event : Event :=
  mkEvent "" 0 0 (Some 0%nat) 0 "user.changed" "{}" "svc" "usr" "v1" "agg2" "user" "org" true.


Definition heap_of (e0 e1 : Event) : Heap :=
  fun a => match a with O => e0 | _ => e1 end.

(** A server that numbers the rows 1, 2, ... and whose clock shows 1000. *)
Definition healthy : Backend :=
  mkBackend None None (fun _ => None)
    (fun i => mkAssigned "generated-id" (Z.of_nat i + 1) 1000) None.

Definition prepare_refused : Backend :=
  mkBackend None (Some (ErrDriver "connection refused")) (fun _ => None)
    (fun i => mkAssigned "generated-id" (Z.of_nat i + 1) 1000) None.

(** The transaction cannot be begun; it cannot be committed. *)
Definition begin_refused : Backend :=
  mkBackend (Some (ErrDriver "connection refused")) None (fun _ => None)
    (fun i => mkAssigned "generated-id" (Z.of_nat i + 1) 1000) None.

Definition commit_refused : Backend :=
  mkBackend None None (fun _ => None)
    (fun i => mkAssigned "generated-id" (Z.of_nat i + 1) 1000)
    (Some (ErrDriver "connection reset")).


(** The four slots of every goroutine of a batch of two next to each other:
    the second goroutine starts when the first has returned. *)
Definition one_after_the_other : list nat := [0; 1; 2; 3]%nat.

(** The row the healthy server stores for [first_event] as task 1. *)
Definition first_row_of_task_1 : Row :=
  mkRow "generated-id" 2 "user.added" "user" "agg1" "v1" 1000 "{}" "usr" "svc" "org" None.

(** A client whose result sets are empty. *)
Definition no_rows_client : Client := fun _ _ => inl [].

(** A query on a field the backend has no column for. *)
Definition unknown_field_query : SearchQuery :=
  mkSearchQuery FetchEvents
    [mkCondition FieldAggregateID OperationEquals (VText "agg1");
     mkCondition (FieldOther 99) OperationEquals (VText "x")].

(** ** Further notions and samples *)

(** The event at [a] is linked to a previous event of another aggregate. *)
Definition linked_to_other_aggregate (h : Heap) (a : Addr) : Prop :=
  exists p,
    PreviousEvent (h a) = Some p /\
    (AggregateType (h p) <> AggregateType (h a) \/
     AggregateID (h p) <> AggregateID (h a)).

(** Row [r] was inserted by the goroutine [task] of a batch whose events are
    read from [h]: it has the server's id and sequence for that goroutine and
    the payload of its event. *)
Definition row_of_goroutine (be : Backend) (h : Heap) (task : nat * Addr) (r : Row)
  : Prop :=
  let e := h (snd task) in
  id r = new_id (assigned be (fst task)) /\
  event_sequence r = new_sequence (assigned be (fst task)) /\
  event_type r = Type_ e /\
  aggregate_type r = AggregateType e /\
  aggregate_id r = AggregateID e /\
  aggregate_version r = Version e /\
  event_data r = Data e /\
  editor_user r = EditorUser e /\
  editor_service r = EditorService e /\
  resource_owner r = ResourceOwner e.

Definition before_statement (g : Goroutine) : bool :=
  match g with Started | Resolved _ => true | _ => false end.

Definition not_returned (g : Goroutine) : bool :=
  match g with Returned => false | _ => true end.

(** How many of the goroutines 0 .. n-1 satisfy [P]. *)
Fixpoint count_upto (P : Goroutine -> bool) (gs : nat -> Goroutine) (n : nat) : nat :=
  match n with
  | O => O
  | S n' => ((if P (gs n') then 1 else 0) + count_upto P gs n')%nat
  end.

(** The arguments of a checked append to (user, agg1) claiming [prev]. *)
Definition checked_args (prev : option Z) : InsertArgs :=
  mkArgs "user.changed" "user" "agg1" "v1" None "{}" "usr" "svc" "org" prev true.

(** A server assigning sequence [s]. *)
Definition server_at (s : Z) : Assigned := mkAssigned "generated-id" s 1000.

(** A row of (user, agg1) with sequence 3 and one of (user, agg2) with
    sequence 9. *)
Definition row_agg1_3 : Row :=
  mkRow "id-3" 3 "user.added" "user" "agg1" "v1" 1000 "{}" "usr" "svc" "org" None.
Definition row_agg2_9 : Row :=
  mkRow "id-9" 9 "user.added" "user" "agg2" "v1" 1000 "{}" "usr" "svc" "org" None.

(** The causes a goroutine can find in [err]: [sql.ErrNoRows], or the error
    the execution of some statement of the batch ended with. *)
Definition statement_failure (be : Backend) (c : error) : Prop :=
  c = ErrNoRows \/ exists i, statement_fault be i = Some c.

(** The two errors a goroutine sends: what it reads in [err] when it wraps
    it (nil, when another goroutine's [Scan] has succeeded since its test, or
    the failure of a statement of the batch), or the precondition failure for
    an event of the batch that is linked to another aggregate. *)
Definition reported_by_goroutine (be : Backend) (h : Heap) (events : list Addr)
  (e : error) : Prop :=
  (exists read, (forall c, read = Some c -> statement_failure be c) /\
                e = ThrowInternal read "SQL-SBP37" "unable to create event") \/
  (e = ThrowPreconditionFailed None "SQL-J55uR" "aggregate of linked events unequal" /\
   exists a, In a events /\ linked_to_other_aggregate h a).

(** What holds of the shared state at every moment of a [Push] of [events]
    started with the structs [h] and the table [tbl]. *)
Definition push_invariant (be : Backend) (h : Heap) (tbl : Table) (events : list Addr)
  (st : TxState) : Prop :=
  let n := List.length events in
  (forall b, payload (heap st b) = payload (h b)) /\
  (forall b, ~ In b events -> heap st b = h b) /\
  (forall c, err st = Some c -> statement_failure be c) /\
  Forall (reported_by_goroutine be h events) (errs st) /\
  (exists rows,
      table st = tbl ++ rows /\
      Forall (fun r => exists t, In t (tasks events) /\ row_of_goroutine be h t r) rows /\
      (List.length rows + count_upto before_statement (goroutines st) n <= n)%nat) /\
  (List.length (errs st) + count_upto not_returned (goroutines st) n <= n)%nat.

(** A client that answers every statement with the same result set, and one
    that refuses every statement. *)
Definition rows_client (rows : list (list SqlValue)) : Client := fun _ _ => inl rows.
Definition refusing_client : Client := fun _ _ => inr (ErrDriver "connection refused").

(** A decoder for rows of one integer: it appends an event with that sequence
    to a list of events, or stores the integer as the sequence; any other row
    is an error. *)
Definition sequence_of_row (row : list SqlValue) : Z :=
  match row with [VInt n] => n | _ => 0%Z end.
Definition event_of_row (row : list SqlValue) : Event :=
  set_Sequence (sequence_of_row row) first_event.
Definition sample_scanner : Scanner :=
  fun row dest =>
    match row, dest with
    | [VInt n], DestEvents events =>
        (None, DestEvents (Some (match events with Some l => l | None => [] end
                                 ++ [event_of_row row])))
    | [VInt n], DestSequence _ => (None, DestSequence n)
    | _, _ => (Some (ThrowInternal None "" "unable to scan row"), dest)
    end.

(** A builder that always returns the same statement, without values. *)
Definition sample_builder : SearchQuery -> string * list SqlValue * Scanner :=
  fun _ => ("SELECT event_sequence FROM eventstore.events"%string, [], sample_scanner).

Definition any_query : SearchQuery := mkSearchQuery FetchEvents [].

(** The row a checked append claiming sequence 3 stores in (user, agg1) when
    the server assigns sequence 4. *)
Definition row_agg1_4 : Row :=
  mkRow "generated-id" 4 "user.changed" "user" "agg1" "v1" 1000 "{}" "usr" "svc" "org"
    (Some 3%Z).
(** * Properties *)

(** ** The conditional insert *)

Lemma max_event_seq_acc (aty aid : string) (tbl : Table) :
  forall acc : option Z,
    let f := fun (acc : option Z) (r : Row) =>
               if (aggregate_type r =? aty)%string && (aggregate_id r =? aid)%string
               then Some (match acc with
                          | None => event_sequence r
                          | Some m => Z.max m (event_sequence r)
                          end)
               else acc in
    match fold_left f tbl acc with
    | None => acc = None /\ forall r, In r tbl -> ~ of_aggregate aty aid r
    | Some m =>
        (acc = Some m \/
         exists r, In r tbl /\ of_aggregate aty aid r /\ event_sequence r = m) /\
        (forall a, acc = Some a -> (a <= m)%Z) /\
        (forall r, In r tbl -> of_aggregate aty aid r -> (event_sequence r <= m)%Z)
    end.
Proof.
  induction tbl as [|r tbl IH]; intros acc f.
  - simpl. destruct acc as [a|].
    + split; [now left|]. split; [intros ? [= ->]; lia| intros ? []].
    + split; [reflexivity| intros ? []].
  - simpl. specialize (IH (f acc r)). cbv zeta in IH. fold f in IH.
    assert (Hm : (aggregate_type r =? aty)%string && (aggregate_id r =? aid)%string = true
                 <-> of_aggregate aty aid r).
    { unfold of_aggregate. rewrite andb_true_iff, !String.eqb_eq. tauto. }
    destruct (fold_left f tbl (f acc r)) as [m|] eqn:E.
    + destruct IH as (Hsrc & Hacc & Hall).
      unfold f in Hsrc, Hacc.
      destruct ((aggregate_type r =? aty)%string && (aggregate_id r =? aid)%string) eqn:B.
      * assert (Hr : of_aggregate aty aid r) by now apply Hm.
        assert (Hle : (event_sequence r <= m)%Z).
        { destruct acc as [a|]; specialize (Hacc _ eq_refl); lia. }
        split; [|split].
        -- destruct Hsrc as [Hs | (r' & Hin & Hag & Hsq)].
           ++ destruct acc as [a|]; injection Hs as Hs.
              ** destruct (Z.max_spec a (event_sequence r)) as [[_ Hx]|[_ Hx]].
                 --- right. exists r. split; [now left|]. split; [assumption|lia].
                 --- left. f_equal. lia.
              ** right. exists r. split; [now left|]. split; assumption.
           ++ right. exists r'. split; [now right|]. split; assumption.
        -- intros a ->. specialize (Hacc _ eq_refl). lia.
        -- intros r' [<-|Hin] Hag; [assumption | now apply Hall].
      * split; [|split].
        -- destruct Hsrc as [Hs | (r' & Hin & Hag & Hsq)]; [now left|].
           right. exists r'. split; [now right|]. split; assumption.
        -- assumption.
        -- intros r' [<-|Hin] Hag; [|now apply Hall].
           apply Hm in Hag. congruence.
    + destruct IH as (Hacc & Hall). unfold f in Hacc.
      destruct ((aggregate_type r =? aty)%string && (aggregate_id r =? aid)%string) eqn:B;
        [discriminate|].
      split; [assumption|].
      intros r' [<-|Hin] Hag; [|now apply (Hall r')].
      apply Hm in Hag. congruence.
Qed.

Lemma max_event_seq_none (tbl : Table) (aty aid : string) :
  max_event_seq tbl aty aid = None <->
  forall r, In r tbl -> ~ of_aggregate aty aid r.
Proof.
  unfold max_event_seq. pose proof (max_event_seq_acc aty aid tbl None) as H.
  cbv zeta in H. split.
  - intros E. rewrite E in H. apply H.
  - intros Hno. destruct (fold_left _ tbl None) as [m|]; [|reflexivity].
    destruct H as ([H|(r & Hin & Hag & _)] & _); [discriminate|].
    now elim (Hno r Hin).
Qed.

Lemma max_event_seq_some (tbl : Table) (aty aid : string) (m : Z) :
  max_event_seq tbl aty aid = Some m <-> is_max_sequence tbl aty aid m.
Proof.
  unfold max_event_seq, is_max_sequence.
  pose proof (max_event_seq_acc aty aid tbl None) as H. cbv zeta in H. split.
  - intros E. rewrite E in H. destruct H as ([H|H] & _ & Hall); [discriminate|].
    split; assumption.
  - intros ((r & Hin & Hag & Hsq) & Hall).
    destruct (fold_left _ tbl None) as [m'|].
    + destruct H as ([H|(r' & Hin' & Hag' & Hsq')] & _ & Hall'); [discriminate|].
      f_equal. specialize (Hall r' Hin' Hag'). specialize (Hall' r Hin Hag). lia.
    + destruct H as (_ & Hno). now elim (Hno r Hin).
Qed.

Lemma insert_where_iff (ie : InputEvent) :
  insert_where ie = true <->
  ie_check_previous ie = false \/ ie_max_event_seq ie = ie_previous_sequence ie.
Proof.
  unfold insert_where, insert_case, sequence_matches.
  destruct (ie_check_previous ie); simpl.
  - destruct (ie_max_event_seq ie) as [m|], (ie_previous_sequence ie) as [p|]; simpl.
    + destruct (m =? p)%Z eqn:E; simpl.
      * apply Z.eqb_eq in E. subst. intuition.
      * apply Z.eqb_neq in E. split; [discriminate|].
        intros [H|H]; [discriminate|congruence].
    + split; [discriminate| intros [H|H]; discriminate].
    + split; [discriminate| intros [H|H]; discriminate].
    + intuition.
  - intuition.
Qed.

(** C3: one execution of the append statement inserts a row (and returns it)
    if and only if the concurrency check is disabled, or the aggregate has no
    row yet and the supplied previous sequence is NULL, or the greatest
    sequence recorded for the aggregate equals the supplied previous
    sequence; otherwise the table is left as it was and no row is returned. *)
Theorem crdbInsert_inserts_iff (srv : Assigned) (tbl : Table) (p : InsertArgs) :
  let aty := arg_aggregate_type p in
  let aid := arg_aggregate_id p in
  let matches :=
    arg_check_previous p = false \/
    ((forall r, In r tbl -> ~ of_aggregate aty aid r) /\ arg_previous_sequence p = None) \/
    (exists m, is_max_sequence tbl aty aid m /\ arg_previous_sequence p = Some m) in
  ((exists r, crdbInsert srv tbl p = (tbl ++ [r], Some (returning r))) <-> matches) /\
  (crdbInsert srv tbl p = (tbl, None) <-> ~ matches).
Proof.
  intros aty aid matches.
  assert (Hw : insert_where (input_event srv tbl p) = true <-> matches).
  { rewrite insert_where_iff. unfold matches, input_event; simpl. fold aty aid.
    split.
    - intros [H|H]; [now left|right].
      destruct (max_event_seq tbl aty aid) as [m|] eqn:E.
      + right. exists m. split; [now apply max_event_seq_some | now symmetry].
      + left. split; [now apply max_event_seq_none | now symmetry].
    - intros [H|[[Hno Hp]|(m & Hmax & Hp)]]; [now left| |]; right.
      + rewrite Hp. now apply max_event_seq_none.
      + rewrite Hp. now apply max_event_seq_some. }
  unfold crdbInsert.
  destruct (insert_where (input_event srv tbl p)) eqn:W.
  - split.
    + split; [intros _; now apply Hw | intros _; eexists; reflexivity].
    + split.
      * intros Habs. discriminate Habs.
      * intros Hn. exfalso. apply Hn. now apply Hw.
  - split.
    + split.
      * intros (r & Habs). discriminate Habs.
      * intros Hm. apply Hw in Hm. discriminate.
    + split; [|reflexivity].
      intros _ Hm. apply Hw in Hm. discriminate.
Qed.

(** ** The scheduler *)

Lemma remove_nth_length {A} (k : nat) (l : list A) :
  (k < List.length l)%nat -> S (List.length (remove_nth k l)) = List.length l.
Proof.
  revert k; induction l as [|x l IH]; intros k Hk; simpl in *; [lia|].
  destruct k as [|k]; [reflexivity|]. simpl. rewrite IH; [reflexivity|lia].
Qed.

Lemma nth_remove_nth_perm {A} (k : nat) (l : list A) (d : A) :
  (k < List.length l)%nat -> Permutation (nth k l d :: remove_nth k l) l.
Proof.
  revert k; induction l as [|x l IH]; intros k Hk; simpl in *; [lia|].
  destruct k as [|k]; [apply Permutation_refl|].
  eapply perm_trans; [apply perm_swap|].
  apply perm_skip, IH. lia.
Qed.

Lemma schedule_perm {A} (n : nat) :
  forall (choices : list nat) (pending : list A),
    List.length pending = n -> Permutation (schedule n choices pending) pending.
Proof.
  induction n as [|n IH]; intros choices pending Hlen.
  - destruct pending; [apply perm_nil|discriminate].
  - destruct pending as [|x pending']; [discriminate|].
    cbn [schedule]. set (l := x :: pending') in *.
    set (k := (hd 0 choices mod List.length l)%nat).
    assert (Hk : (k < List.length l)%nat).
    { apply Nat.mod_upper_bound. rewrite Hlen. discriminate. }
    eapply perm_trans; [|apply (nth_remove_nth_perm k l x Hk)].
    apply perm_skip, IH.
    pose proof (remove_nth_length k l Hk). lia.
Qed.

Lemma tasks_length (events : list Addr) :
  List.length (tasks events) = List.length events.
Proof.
  unfold tasks. rewrite length_combine, length_seq. apply Nat.min_id.
Qed.

(** Whatever the choices, every goroutine gets its four slots and nothing
    else is run. *)
Lemma run_order_perm (choices : list nat) (events : list Addr) :
  Permutation (run_order choices events)
    (tasks events ++ tasks events ++ tasks events ++ tasks events).
Proof.
  apply schedule_perm. rewrite !length_app, tasks_length. lia.
Qed.

Lemma In_run_order (choices : list nat) (events : list Addr) (t : nat * Addr) :
  In t (run_order choices events) <-> In t (tasks events).
Proof.
  split; intros H.
  - apply (Permutation_in _ (run_order_perm choices events)) in H.
    repeat (apply in_app_or in H; destruct H as [H|H]; [exact H|]). exact H.
  - apply (Permutation_in _ (Permutation_sym (run_order_perm choices events))).
    apply in_or_app. now left.
Qed.

Lemma In_tasks_of_In (events : list Addr) (a : Addr) :
  In a events -> exists i, In (i, a) (tasks events).
Proof.
  unfold tasks. generalize 0%nat.
  induction events as [|b events IH]; intros s Hin; [destruct Hin|].
  simpl. destruct Hin as [->|Hin].
  - exists s. now left.
  - destruct (IH (S s) Hin) as (i & Hi). exists i. now right.
Qed.

Lemma tasks_fst (events : list Addr) :
  map fst (tasks events) = seq 0 (List.length events).
Proof.
  unfold tasks. generalize 0%nat.
  induction events as [|b events IH]; intros s; simpl; [reflexivity|].
  now rewrite IH.
Qed.

Lemma NoDup_fst_functional {A B} (l : list (A * B)) (x : A) (y y' : B) :
  NoDup (map fst l) -> In (x, y) l -> In (x, y') l -> y = y'.
Proof.
  induction l as [|[x0 y0] l IH]; intros Hnd H1 H2; [destruct H1|].
  simpl in Hnd. apply NoDup_cons_iff in Hnd. destruct Hnd as (Hnot & Hnd).
  destruct H1 as [H1|H1], H2 as [H2|H2].
  - congruence.
  - injection H1 as -> _. elim Hnot. apply (in_map fst) in H2. exact H2.
  - injection H2 as -> _. elim Hnot. apply (in_map fst) in H1. exact H1.
  - now apply IH.
Qed.

(** A goroutine number stands for one event struct. *)
Lemma run_order_functional (choices : list nat) (events : list Addr)
  (i : nat) (a a' : Addr) :
  In (i, a) (run_order choices events) -> In (i, a') (run_order choices events) ->
  a = a'.
Proof.
  intros H1 H2. apply In_run_order in H1, H2.
  apply (NoDup_fst_functional (tasks events) i a a'); try assumption.
  rewrite tasks_fst. apply seq_NoDup.
Qed.

Lemma first_slot {B} (l : list (nat * B)) (i : nat) :
  In i (map fst l) ->
  exists pre b post, l = pre ++ (i, b) :: post /\ ~ In i (map fst pre).
Proof.
  induction l as [|[j b] l IH]; intros Hin; [destruct Hin|].
  destruct (Nat.eq_dec j i) as [->|Hne].
  - exists [], b, l. split; [reflexivity|]. intros [].
  - destruct Hin as [Hji|Hin]; [simpl in Hji; congruence|].
    destruct (IH Hin) as (pre & b' & post & -> & Hpre).
    exists ((j, b) :: pre), b', post. split; [reflexivity|].
    simpl. intros [H|H]; [congruence | now apply Hpre].
Qed.

(** Every event of the batch has a goroutine, which gets to run. *)
Lemma goroutine_is_run (choices : list nat) (events : list Addr) (a : Addr) :
  In a events ->
  exists i pre post,
    run_order choices events = pre ++ (i, a) :: post /\ ~ In i (map fst pre).
Proof.
  intros Hin. destruct (In_tasks_of_In events a Hin) as (i & Hi).
  assert (Hord : In (i, a) (run_order choices events)) by now apply In_run_order.
  destruct (first_slot (run_order choices events) i) as (pre & a' & post & E & Hpre).
  { apply (in_map fst) in Hord. exact Hord. }
  assert (a' = a).
  { apply (run_order_functional choices events i a' a); [|exact Hord].
    rewrite E. apply in_or_app. right. now left. }
  subst a'. now exists i, pre, post.
Qed.

(** ** One stretch of a goroutine *)

Lemma QueryRowContext_cases (be : Backend) (i : nat) (tbl : Table) (args : InsertArgs) :
  (exists e, statement_fault be i = Some e /\
             QueryRowContext be i tbl args = (tbl, inr e)) \/
  (statement_fault be i = None /\
   crdbInsert (assigned be i) tbl args = (tbl, None) /\
   QueryRowContext be i tbl args = (tbl, inr ErrNoRows)) \/
  (statement_fault be i = None /\
   let r := inserted_row (assigned be i) (input_event (assigned be i) tbl args) in
   crdbInsert (assigned be i) tbl args = (tbl ++ [r], Some (returning r)) /\
   QueryRowContext be i tbl args = (tbl ++ [r], inl (returning r))).
Proof.
  unfold QueryRowContext.
  destruct (statement_fault be i) as [e|]; [left; now exists e|right].
  unfold crdbInsert. destruct (insert_where _); [right|left]; auto.
Qed.

(** The first stretch: the aggregates differ, or the previous sequence is
    resolved. *)
Lemma pushStep_started (be : Backend) (st : TxState) (i : nat) (a : Addr) :
  goroutines st i = Started ->
  (resolvePrevious (heap st) (heap st a) = None /\
   pushStep be st (i, a) =
   mkTx (heap st) (table st)
     (errs st ++ [ThrowPreconditionFailed None "SQL-J55uR"
                    "aggregate of linked events unequal"])
     (err st) (set_goroutine (goroutines st) i Returned)) \/
  (exists prev,
      resolvePrevious (heap st) (heap st a) = Some prev /\
      pushStep be st (i, a) =
      mkTx (heap st) (table st) (errs st) (err st)
        (set_goroutine (goroutines st) i (Resolved prev))).
Proof.
  intros Hg. unfold pushStep. rewrite Hg.
  destruct (resolvePrevious (heap st) (heap st a)) as [prev|]; [right|left; auto].
  exists prev. auto.
Qed.

(** The second stretch: the statement fails, or it returns its row. *)
Lemma pushStep_resolved (be : Backend) (st : TxState) (i : nat) (a : Addr) (prev : Z) :
  goroutines st i = Resolved prev ->
  let e := heap st a in
  (exists failure,
      QueryRowContext be i (table st) (insertArgs e prev) = (table st, inr failure) /\
      pushStep be st (i, a) =
      mkTx (heap st) (table st) (errs st) (Some failure)
        (set_goroutine (goroutines st) i (Scanned prev))) \/
  (let r := inserted_row (assigned be i)
              (input_event (assigned be i) (table st) (insertArgs e prev)) in
   QueryRowContext be i (table st) (insertArgs e prev)
   = (table st ++ [r], inl (returning r)) /\
   pushStep be st (i, a) =
   mkTx (store (heap st) a (scanned_into (returning r) e)) (table st ++ [r])
     (errs st) None
     (set_goroutine (goroutines st) i
        (Scanned (Sequence_Scan (ret_previous_sequence (returning r)))))).
Proof.
  intros Hg e. unfold pushStep. rewrite Hg. fold e.
  destruct (QueryRowContext_cases be i (table st) (insertArgs e prev))
    as [(failure & _ & Q)|[(_ & _ & Q)|(_ & _ & Q)]]; cbv zeta in Q; rewrite Q.
  - left. exists failure. auto.
  - left. exists ErrNoRows. auto.
  - right. auto.
Qed.

(** The third stretch: the assignment and the test of [err]. *)
Lemma pushStep_scanned (be : Backend) (st : TxState) (i : nat) (a : Addr) (prev : Z) :
  goroutines st i = Scanned prev ->
  pushStep be st (i, a) =
  mkTx (store (heap st) a (set_PreviousSequence prev (heap st a))) (table st)
    (errs st) (err st)
    (set_goroutine (goroutines st) i
       (match err st with Some _ => Reporting | None => Returned end)).
Proof. intros Hg. unfold pushStep. now rewrite Hg. Qed.

(** The fourth stretch: [err] is read again, wrapped and sent. *)
Lemma pushStep_reporting (be : Backend) (st : TxState) (i : nat) (a : Addr) :
  goroutines st i = Reporting ->
  pushStep be st (i, a) =
  mkTx (heap st) (table st)
    (errs st ++ [ThrowInternal (err st) "SQL-SBP37" "unable to create event"])
    (err st) (set_goroutine (goroutines st) i Returned).
Proof. intros Hg. unfold pushStep. now rewrite Hg. Qed.

Lemma pushStep_returned (be : Backend) (st : TxState) (i : nat) (a : Addr) :
  goroutines st i = Returned -> pushStep be st (i, a) = st.
Proof. intros Hg. unfold pushStep. now rewrite Hg. Qed.

Lemma store_same (h : Heap) (a : Addr) (e : Event) : store h a e a = e.
Proof. unfold store. now rewrite Nat.eqb_refl. Qed.

Lemma store_other (h : Heap) (a b : Addr) (e : Event) : b <> a -> store h a e b = h b.
Proof. intros H. unfold store. apply Nat.eqb_neq in H. now rewrite H. Qed.

Lemma set_goroutine_same (gs : nat -> Goroutine) (i : nat) (g : Goroutine) :
  set_goroutine gs i g i = g.
Proof. unfold set_goroutine. now rewrite Nat.eqb_refl. Qed.

Lemma set_goroutine_other (gs : nat -> Goroutine) (i j : nat) (g : Goroutine) :
  j <> i -> set_goroutine gs i g j = gs j.
Proof. intros H. unfold set_goroutine. apply Nat.eqb_neq in H. now rewrite H. Qed.

(** The shapes of a stretch, for the facts that hold of all of them. *)
Ltac step_cases be st i a :=
  let Hg := fresh "Hg" in
  let E := fresh "E" in
  destruct (goroutines st i) as [|?prev|?prev| |] eqn:Hg;
  [ destruct (pushStep_started be st i a Hg) as [(_ & E)|(?prev & _ & E)]
  | destruct (pushStep_resolved be st i a _ Hg) as [(?failure & _ & E)|(_ & E)];
    cbv zeta in E
  | pose proof (pushStep_scanned be st i a _ Hg) as E
  | pose proof (pushStep_reporting be st i a Hg) as E
  | pose proof (pushStep_returned be st i a Hg) as E ];
  rewrite E; clear E.

(** A stretch assigns to the struct of its event only, never to its payload,
    and moves its own goroutine only. *)
Lemma pushStep_heap (be : Backend) (st : TxState) (i : nat) (a : Addr) :
  (forall b, b <> a -> heap (pushStep be st (i, a)) b = heap st b) /\
  (forall b, payload (heap (pushStep be st (i, a)) b) = payload (heap st b)).
Proof.
  step_cases be st i a; simpl; split; intros b; try reflexivity;
    try (intros Hb; now apply store_other);
    (destruct (Nat.eq_dec b a) as [->|Hb];
     [rewrite store_same; reflexivity | now rewrite store_other]).
Qed.

Lemma pushStep_goroutines (be : Backend) (st : TxState) (i : nat) (a : Addr) (j : nat) :
  j <> i -> goroutines (pushStep be st (i, a)) j = goroutines st j.
Proof.
  intros Hj. step_cases be st i a; simpl; try reflexivity;
    now apply set_goroutine_other.
Qed.

(** A stretch adds at most one error to the channel, a classified one, and
    at most one row to the table. *)
Lemma pushStep_grows (be : Backend) (st : TxState) (i : nat) (a : Addr) :
  exists es rows,
    errs (pushStep be st (i, a)) = errs st ++ es /\
    table (pushStep be st (i, a)) = table st ++ rows /\
    Forall (fun e => is_CaosError e = true) es.
Proof.
  step_cases be st i a; simpl;
    try (exists [], []; rewrite !app_nil_r; repeat split; constructor);
    try (eexists [_], []; rewrite app_nil_r; repeat split; now constructor).
  eexists [], [_]. rewrite app_nil_r. repeat split. constructor.
Qed.

(** The linked event is judged on payload alone, so the verdict does not
    depend on when the goroutine runs. *)
Lemma resolvePrevious_mismatch (h h' : Heap) (a p : Addr) :
  (forall b, payload (h' b) = payload (h b)) ->
  PreviousEvent (h a) = Some p ->
  AggregateType (h p) <> AggregateType (h a) \/ AggregateID (h p) <> AggregateID (h a) ->
  resolvePrevious h' (h' a) = None.
Proof.
  intros Hp Hprev Hne. unfold resolvePrevious.
  pose proof (Hp a) as Ha. pose proof (Hp p) as Hpp. unfold payload in Ha, Hpp.
  injection Ha as _ _ _ _ _ Haid Haty _ _ Hpe.
  injection Hpp as _ _ _ _ _ Hpid Hpty _ _ _.
  rewrite Hpe, Hprev, Haid, Haty, Hpid, Hpty.
  destruct Hne as [Hn|Hn]; apply String.eqb_neq in Hn; rewrite Hn; simpl;
    [reflexivity | now rewrite orb_true_r].
Qed.

(** ** All goroutines of a batch *)

Lemma run_tasks_app (be : Backend) (pre post : list (nat * Addr)) (st : TxState) :
  run_tasks be (pre ++ post) st = run_tasks be post (run_tasks be pre st).
Proof. apply fold_left_app. Qed.

Lemma run_tasks_cons (be : Backend) (t : nat * Addr) (post : list (nat * Addr))
  (st : TxState) :
  run_tasks be (t :: post) st = run_tasks be post (pushStep be st t).
Proof. reflexivity. Qed.

Lemma run_tasks_payload (be : Backend) (order : list (nat * Addr)) :
  forall st b, payload (heap (run_tasks be order st) b) = payload (heap st b).
Proof.
  induction order as [|[i a] order IH]; intros st b; [reflexivity|].
  rewrite run_tasks_cons, IH. apply pushStep_heap.
Qed.

Lemma run_tasks_frame (be : Backend) (order : list (nat * Addr)) :
  forall st b, ~ In b (map snd order) -> heap (run_tasks be order st) b = heap st b.
Proof.
  induction order as [|[i a] order IH]; intros st b Hb; [reflexivity|].
  rewrite run_tasks_cons, IH.
  - apply pushStep_heap. intros ->. apply Hb. now left.
  - intros Hin. apply Hb. now right.
Qed.

Lemma run_tasks_goroutines (be : Backend) (order : list (nat * Addr)) :
  forall st j, ~ In j (map fst order) ->
               goroutines (run_tasks be order st) j = goroutines st j.
Proof.
  induction order as [|[i a] order IH]; intros st j Hj; [reflexivity|].
  rewrite run_tasks_cons, IH.
  - apply pushStep_goroutines. intros ->. apply Hj. now left.
  - intros Hin. apply Hj. now right.
Qed.

(** The channel only grows, by classified errors; the table only grows. *)
Lemma run_tasks_grows (be : Backend) (order : list (nat * Addr)) :
  forall st,
    exists es rows,
      errs (run_tasks be order st) = errs st ++ es /\
      table (run_tasks be order st) = table st ++ rows /\
      Forall (fun e => is_CaosError e = true) es.
Proof.
  induction order as [|[i a] order IH]; intros st.
  - exists [], []. simpl. rewrite !app_nil_r. repeat split. constructor.
  - rewrite run_tasks_cons.
    destruct (IH (pushStep be st (i, a))) as (es & rows & He & Ht & Hc).
    destruct (pushStep_grows be st i a) as (es0 & rows0 & He0 & Ht0 & Hc0).
    exists (es0 ++ es), (rows0 ++ rows).
    rewrite He, Ht, He0, Ht0, <- !app_assoc. repeat split.
    apply Forall_app. now split.
Qed.


(** ** [Push] as a whole *)

Lemma storeError_classified (e : error) :
  is_CaosError e = true -> storeError e = e.
Proof. intros H. unfold storeError. now rewrite H. Qed.

Lemma Push_begin_failed (be : Backend) (choices : list nat) (tbl : Table) (h : Heap)
  (events : list Addr) (e : error) :
  begin_fault be = Some e ->
  Push be choices tbl h events = (Some (storeError e), tbl, h).
Proof. intros Hbeg. unfold Push, ExecuteTx. now rewrite Hbeg. Qed.

Lemma Push_prepare_failed (be : Backend) (choices : list nat) (tbl : Table) (h : Heap)
  (events : list Addr) (e : error) :
  begin_fault be = None ->
  prepare_fault be = Some e ->
  Push be choices tbl h events
  = (Some (ThrowInternal (Some e) "SQL-OdXRE" "prepare failed"), tbl, h).
Proof. intros Hbeg Hprep. unfold Push, ExecuteTx, pushTx. now rewrite Hbeg, Hprep. Qed.

(** Once an error is in the channel the transaction is lost: [Push] returns
    the first one and the table is restored. *)
Lemma Push_first_error (be : Backend) (choices : list nat) (tbl : Table) (h : Heap)
  (events : list Addr) (e : error) (es : list error) :
  begin_fault be = None ->
  prepare_fault be = None ->
  errs (run_tasks be (run_order choices events) (start h tbl)) = e :: es ->
  Push be choices tbl h events
  = (Some e, tbl, heap (run_tasks be (run_order choices events) (start h tbl))).
Proof.
  intros Hbeg Hprep Herrs. unfold Push, ExecuteTx, pushTx.
  rewrite Hbeg, Hprep, Herrs. simpl.
  destruct (run_tasks_grows be (run_order choices events) (start h tbl))
    as (es' & rows & He & _ & Hc).
  simpl in He. rewrite Herrs in He. subst es'.
  apply Forall_inv in Hc. now rewrite (storeError_classified e Hc).
Qed.

(** With an empty channel [Push] tries to commit what the transaction holds:
    it returns nil when that succeeds, and the error of the commit, with the
    table as it was, when it does not. *)
Lemma Push_no_error (be : Backend) (choices : list nat) (tbl : Table) (h : Heap)
  (events : list Addr) :
  begin_fault be = None ->
  prepare_fault be = None ->
  errs (run_tasks be (run_order choices events) (start h tbl)) = [] ->
  Push be choices tbl h events
  = match commit_fault be with
    | Some e =>
        (Some (storeError e), tbl,
         heap (run_tasks be (run_order choices events) (start h tbl)))
    | None =>
        (None, table (run_tasks be (run_order choices events) (start h tbl)),
         heap (run_tasks be (run_order choices events) (start h tbl)))
    end.
Proof.
  intros Hbeg Hprep Herrs. unfold Push, ExecuteTx, pushTx.
  rewrite Hbeg, Hprep, Herrs. simpl. now destruct (commit_fault be).
Qed.


(** What [Push] returns once the transaction is begun and the statement
    prepared. *)
Lemma Push_prepared (be : Backend) (choices : list nat) (tbl : Table) (h : Heap)
  (events : list Addr) :
  begin_fault be = None ->
  prepare_fault be = None ->
  let final := run_tasks be (run_order choices events) (start h tbl) in
  Push be choices tbl h events
  = (match errs final with
     | e :: _ => Some e
     | [] => option_map storeError (commit_fault be)
     end,
     match errs final, commit_fault be with
     | [], None => table final
     | _, _ => tbl
     end,
     heap final).
Proof.
  intros Hbeg Hprep final. destruct (errs final) as [|e es] eqn:Herrs.
  - unfold final in *. rewrite (Push_no_error be choices tbl h events Hbeg Hprep Herrs).
    now destruct (commit_fault be).
  - unfold final in *.
    rewrite (Push_first_error be choices tbl h events e es Hbeg Hprep Herrs).
    reflexivity.
Qed.

(** The structs [Push] leaves are those the goroutines leave; when the
    transaction cannot be begun or the statement not prepared, no goroutine
    runs and they are as before. *)
Lemma Push_heap (be : Backend) (choices : list nat) (tbl : Table) (h : Heap)
  (events : list Addr) :
  snd (Push be choices tbl h events)
  = match begin_fault be, prepare_fault be with
    | None, None => heap (run_tasks be (run_order choices events) (start h tbl))
    | _, _ => h
    end.
Proof.
  destruct (begin_fault be) as [e|] eqn:Hbeg.
  - now rewrite (Push_begin_failed be choices tbl h events e Hbeg).
  - destruct (prepare_fault be) as [e|] eqn:Hprep.
    + now rewrite (Push_prepare_failed be choices tbl h events e Hbeg Hprep).
    + now rewrite (Push_prepared be choices tbl h events Hbeg Hprep).
Qed.

(** Whenever [Push] returns an error the table is the one before the call. *)
Lemma Push_error_restores (be : Backend) (choices : list nat) (tbl : Table) (h : Heap)
  (events : list Addr) (e : error) (tbl' : Table) (h' : Heap) :
  Push be choices tbl h events = (Some e, tbl', h') -> tbl' = tbl.
Proof.
  intros HP. destruct (begin_fault be) as [c|] eqn:Hbeg.
  - rewrite (Push_begin_failed be choices tbl h events c Hbeg) in HP. congruence.
  - destruct (prepare_fault be) as [c|] eqn:Hprep.
    + rewrite (Push_prepare_failed be choices tbl h events c Hbeg Hprep) in HP.
      congruence.
    + rewrite (Push_prepared be choices tbl h events Hbeg Hprep) in HP.
      cbv zeta in HP.
      destruct (errs (run_tasks be (run_order choices events) (start h tbl)));
        destruct (commit_fault be); simpl in HP; congruence.
Qed.

(** A goroutine that has not had a slot is still at its start. *)
Lemma not_yet_run (be : Backend) (pre : list (nat * Addr)) (h : Heap) (tbl : Table)
  (i : nat) :
  ~ In i (map fst pre) -> goroutines (run_tasks be pre (start h tbl)) i = Started.
Proof. intros Hpre. now rewrite run_tasks_goroutines. Qed.

(** Once a goroutine is past its test of [err] it assigns to no struct any
    more. *)
Lemma pushStep_past_test (be : Backend) (st : TxState) (i : nat) (a : Addr) :
  goroutines st i = Reporting \/ goroutines st i = Returned ->
  heap (pushStep be st (i, a)) = heap st /\
  (goroutines (pushStep be st (i, a)) i = Reporting \/
   goroutines (pushStep be st (i, a)) i = Returned).
Proof.
  intros [Hg|Hg].
  - rewrite (pushStep_reporting be st i a Hg). simpl. split; [reflexivity|].
    right. apply set_goroutine_same.
  - rewrite (pushStep_returned be st i a Hg). auto.
Qed.

(** When the struct at [a] is worked on by goroutine [i] only and that
    goroutine is past its test, the struct stays as it is. *)
Lemma run_tasks_past_test (be : Backend) (order : list (nat * Addr)) (i : nat)
  (a : Addr) :
  forall st,
    (forall j, In (j, a) order -> j = i) ->
    goroutines st i = Reporting \/ goroutines st i = Returned ->
    heap (run_tasks be order st) a = heap st a.
Proof.
  induction order as [|[j b] order IH]; intros st Hown Hg; [reflexivity|].
  rewrite run_tasks_cons.
  assert (Hown' : forall j', In (j', a) order -> j' = i).
  { intros j' Hj'. apply Hown. now right. }
  destruct (Nat.eq_dec b a) as [->|Hb].
  - assert (j = i) by (apply Hown; now left). subst j.
    destruct (pushStep_past_test be st i a Hg) as (Hh & Hg').
    rewrite (IH _ Hown' Hg'). now rewrite Hh.
  - rewrite IH; [now apply pushStep_heap|exact Hown'|].
    destruct (Nat.eq_dec j i) as [->|Hj].
    + now apply pushStep_past_test.
    + now rewrite pushStep_goroutines by congruence.
Qed.

(** A struct that goroutine [i] alone works on is not among the structs of
    the slots in which [i] does not run. *)
Lemma sole_owner_frame (order : list (nat * Addr)) (i : nat) (a : Addr) :
  (forall j, In (j, a) order -> j = i) ->
  ~ In i (map fst order) -> ~ In a (map snd order).
Proof.
  intros Hown Hi Ha. apply in_map_iff in Ha. destruct Ha as ([j b] & Hb & Hin).
  simpl in Hb. subst b. apply Hi. apply in_map_iff. exists (j, a).
  split; [simpl; now apply Hown | exact Hin].
Qed.

(** Runs the next stretch of a goroutine whose state is known. *)
Ltac next_stretch :=
  match goal with
  | |- context [pushStep ?be (mkTx ?h ?t ?es ?e ?g) (?i, ?a)] =>
      first
        [ rewrite (pushStep_returned be (mkTx h t es e g) i a)
            by (cbn [goroutines]; apply set_goroutine_same)
        | rewrite (pushStep_reporting be (mkTx h t es e g) i a)
            by (cbn [goroutines]; apply set_goroutine_same)
        | erewrite (pushStep_scanned be (mkTx h t es e g) i a)
            by (cbn [goroutines]; apply set_goroutine_same) ];
      cbn [heap table errs err goroutines]
  end.
(** ** Goroutines that are not interleaved *)

(** All four slots in a row: the goroutine returns having sent one error, or
    having inserted one row. *)
Lemma pushStep_in_a_row (be : Backend) (st : TxState) (i : nat) (a : Addr) :
  goroutines st i = Started ->
  let st' := run_tasks be [(i, a); (i, a); (i, a); (i, a)] st in
  (forall j, j <> i -> goroutines st' j = goroutines st j) /\
  ((exists e, errs st' = errs st ++ [e] /\ table st' = table st) \/
   (exists row, errs st' = errs st /\ table st' = table st ++ [row])).
Proof.
  intros Hg st'. split.
  - intros j Hj. unfold st'. rewrite run_tasks_goroutines; [reflexivity|].
    simpl. intuition congruence.
  - unfold st'. cbn [run_tasks fold_left].
    destruct (pushStep_started be st i a Hg) as [(_ & E)|(prev & _ & E)]; rewrite E.
    + do 3 next_stretch. left. eexists. split; reflexivity.
    + match goal with
      | |- context [pushStep be (mkTx ?h ?t ?es ?e ?g) (i, a)] =>
          destruct (pushStep_resolved be (mkTx h t es e g) i a prev
                      (set_goroutine_same _ _ _)) as [(failure & _ & E')|(_ & E')];
          cbv zeta in E'; rewrite E'; cbn [heap table errs err goroutines]
      end.
      * do 2 next_stretch. left. eexists. split; reflexivity.
      * do 2 next_stretch. right. eexists. split; reflexivity.
Qed.

Lemma run_serial (be : Backend) (ts : list (nat * Addr)) :
  forall st,
    NoDup (map fst ts) ->
    (forall i, In i (map fst ts) -> goroutines st i = Started) ->
    exists es rows,
      errs (run_tasks be (serial ts) st) = errs st ++ es /\
      table (run_tasks be (serial ts) st) = table st ++ rows /\
      (List.length es + List.length rows = List.length ts)%nat.
Proof.
  induction ts as [|[i a] ts IH]; intros st Hnd Hst.
  - exists [], []. simpl. rewrite !app_nil_r. auto.
  - simpl in Hnd. apply NoDup_cons_iff in Hnd. destruct Hnd as (Hnot & Hnd).
    change (serial ((i, a) :: ts))
      with ([(i, a); (i, a); (i, a); (i, a)] ++ serial ts).
    rewrite run_tasks_app.
    destruct (pushStep_in_a_row be st i a (Hst i (or_introl eq_refl))) as (Hgs & Hout).
    cbv zeta in Hgs, Hout.
    destruct (IH (run_tasks be [(i, a); (i, a); (i, a); (i, a)] st) Hnd)
      as (es & rows & He & Ht & Hlen).
    { intros j Hj. rewrite Hgs.
      - apply Hst. now right.
      - intros ->. now apply Hnot. }
    rewrite He, Ht.
    destruct Hout as [(e & He0 & Ht0)|(row & He0 & Ht0)]; rewrite He0, Ht0.
    + exists (e :: es), rows. rewrite <- app_assoc. simpl. repeat split. lia.
    + exists es, (row :: rows). rewrite <- app_assoc. simpl. repeat split. lia.
Qed.

Lemma serial_length (ts : list (nat * Addr)) :
  List.length (serial ts) = (4 * List.length ts)%nat.
Proof.
  induction ts as [|t ts IH]; [reflexivity|].
  change (serial (t :: ts)) with (t :: t :: t :: t :: serial ts). simpl. rewrite IH. lia.
Qed.

Lemma count_occ_serial_fst (ts : list (nat * Addr)) (i : nat) :
  count_occ Nat.eq_dec (map fst (serial ts)) i
  = (4 * count_occ Nat.eq_dec (map fst ts) i)%nat.
Proof.
  induction ts as [|[j a] ts IH]; [reflexivity|].
  change (serial ((j, a) :: ts))
    with ((j, a) :: (j, a) :: (j, a) :: (j, a) :: serial ts).
  simpl. destruct (Nat.eq_dec j i); rewrite IH; lia.
Qed.

(** An order without interleaving runs each goroutine of the batch once. *)
Lemma serial_order_tasks (choices : list nat) (events : list Addr)
  (ts : list (nat * Addr)) :
  run_order choices events = serial ts ->
  NoDup (map fst ts) /\ List.length ts = List.length events.
Proof.
  intros Hord.
  pose proof (run_order_perm choices events) as Hperm. rewrite Hord in Hperm.
  split.
  - apply (NoDup_count_occ Nat.eq_dec). intros i.
    pose proof (Permutation_map fst Hperm) as Hmap.
    pose proof (proj1 (Permutation_count_occ Nat.eq_dec _ _) Hmap i) as Hc.
    rewrite count_occ_serial_fst, !map_app, !count_occ_app, tasks_fst in Hc.
    pose proof (proj1 (NoDup_count_occ Nat.eq_dec _) (seq_NoDup (List.length events) 0) i).
    lia.
  - apply Permutation_length in Hperm.
    rewrite !length_app, tasks_length, serial_length in Hperm. lia.
Qed.

(** When the chosen order is without interleaving, [Push] is all or nothing:
    it returns the first error sent and restores the table; or, no error
    having been sent, the transaction holds one more row for each of the N
    events, and [Push] returns nil and commits them all, or returns the error
    of the commit and the table is as before. *)
Lemma Push_serial_all_or_nothing (be : Backend) (choices : list nat) (tbl : Table)
  (h : Heap) (events : list Addr) (ts : list (nat * Addr)) :
  begin_fault be = None ->
  prepare_fault be = None ->
  run_order choices events = serial ts ->
  let final := run_tasks be (run_order choices events) (start h tbl) in
  match errs final with
  | e :: _ => Push be choices tbl h events = (Some e, tbl, heap final)
  | [] =>
      exists rows,
        table final = tbl ++ rows /\
        List.length rows = List.length events /\
        Push be choices tbl h events
        = match commit_fault be with
          | Some c => (Some (storeError c), tbl, heap final)
          | None => (None, tbl ++ rows, heap final)
          end
  end.
Proof.
  intros Hbeg Hprep Hord final.
  rewrite (Push_prepared be choices tbl h events Hbeg Hprep). cbv zeta. fold final.
  destruct (errs final) as [|e es] eqn:Herrs; [|reflexivity].
  destruct (serial_order_tasks choices events ts Hord) as (Hnd & Hlen).
  destruct (run_serial be ts (start h tbl) Hnd (fun _ _ => eq_refl))
    as (es & rows & He & Ht & Hl).
  unfold final in Herrs |- *. rewrite Hord in Herrs |- *.
  rewrite Herrs in He. simpl in He. subst es.
  exists rows. simpl in Ht. split; [exact Ht|]. split; [simpl in Hl; lia|].
  rewrite Ht. now destruct (commit_fault be).
Qed.

(** ** The append engine *)

(** C2 fails on the code.  A batch of two events of one aggregate without
    rows: the first claims sequence 5, so that its statement returns no row,
    the second is in order.  When the goroutines run one after the other
    [Push] returns the error and stores nothing.  When the second goroutine
    returns from [Scan] between the [Scan] of the first and its test of
    [err], the variable they share is nil again at that test: no error is
    sent, [Push] returns nil, and one row of the two is committed. *)
Theorem Push_loses_error_when_interleaved :
  let h := heap_of stale_event first_event in
  crdbInsert (assigned healthy 0) [] (insertArgs stale_event 5) = ([], None) /\
  fst (Push healthy one_after_the_other [] h [0%nat; 1%nat])
  = (Some (ThrowInternal (Some ErrNoRows) "SQL-SBP37" "unable to create event"), []) /\
  run_order [] [0%nat; 1%nat]
  = [(0, 0); (1, 1); (0, 0); (1, 1); (0, 0); (1, 1); (0, 0); (1, 1)]%nat /\
  fst (Push healthy [] [] h [0%nat; 1%nat]) = (None, [first_row_of_task_1]).
Proof. repeat split. Qed.

(** C4: when an event of the batch is linked to a previous event of another
    aggregate type or id, its goroutine gets to run, and in its first stretch
    it sends the precondition failure "aggregate of linked events unequal"
    and returns: no statement is executed, no event is assigned to, and its
    later slots do nothing.  With the statement prepared the error is in the
    channel when all goroutines have run; in every case [Push] returns an
    error and leaves the table as it was. *)
Theorem linked_aggregate_mismatch_rejected (be : Backend) (choices : list nat)
  (tbl : Table) (h : Heap) (events : list Addr) (a p : Addr) :
  In a events ->
  PreviousEvent (h a) = Some p ->
  AggregateType (h p) <> AggregateType (h a) \/ AggregateID (h p) <> AggregateID (h a) ->
  let mismatch :=
    ThrowPreconditionFailed None "SQL-J55uR" "aggregate of linked events unequal" in
  let final := run_tasks be (run_order choices events) (start h tbl) in
  (exists i pre post,
      run_order choices events = pre ++ (i, a) :: post /\ ~ In i (map fst pre)) /\
  (forall i pre post,
      run_order choices events = pre ++ (i, a) :: post -> ~ In i (map fst pre) ->
      let st := run_tasks be pre (start h tbl) in
      pushStep be st (i, a)
      = mkTx (heap st) (table st) (errs st ++ [mismatch]) (err st)
          (set_goroutine (goroutines st) i Returned) /\
      (forall st', goroutines st' i = Returned -> pushStep be st' (i, a) = st')) /\
  kind_of mismatch = Some PreconditionFailed /\
  (prepare_fault be = None -> In mismatch (errs final)) /\
  (exists e h', Push be choices tbl h events = (Some e, tbl, h')).
Proof.
  intros Hin Hprev Hne mismatch final.
  assert (Hstep : forall i pre post,
             run_order choices events = pre ++ (i, a) :: post -> ~ In i (map fst pre) ->
             let st := run_tasks be pre (start h tbl) in
             pushStep be st (i, a)
             = mkTx (heap st) (table st) (errs st ++ [mismatch]) (err st)
                 (set_goroutine (goroutines st) i Returned)).
  { intros i pre post _ Hpre st.
    assert (Hres : resolvePrevious (heap st) (heap st a) = None).
    { apply (resolvePrevious_mismatch h (heap st) a p); try assumption.
      intros b. unfold st. now rewrite run_tasks_payload. }
    destruct (pushStep_started be st i a (not_yet_run be pre h tbl i Hpre))
      as [(_ & E)|(prev & R & _)]; [exact E | congruence]. }
  destruct (goroutine_is_run choices events a Hin) as (i & pre & post & Hord & Hpre).
  assert (Hsent : In mismatch (errs final)).
  { unfold final. rewrite Hord, run_tasks_app, run_tasks_cons, (Hstep i pre post Hord Hpre).
    match goal with
    | |- In _ (errs (run_tasks be post ?s)) =>
        destruct (run_tasks_grows be post s) as (es & rows & He & _)
    end.
    rewrite He. simpl. rewrite <- app_assoc. apply in_or_app. right. now left. }
  split; [now exists i, pre, post|]. split; [|split; [reflexivity|split]].
  - intros i' pre' post' Hord' Hpre'. split; [now apply (Hstep i' pre' post')|].
    intros st' Hg. now apply pushStep_returned.
  - intros _. exact Hsent.
  - destruct (begin_fault be) as [e|] eqn:Hbeg.
    { eexists _, _. apply Push_begin_failed. exact Hbeg. }
    destruct (prepare_fault be) as [e|] eqn:Hprep.
    + eexists _, _. apply Push_prepare_failed; [exact Hbeg | exact Hprep].
    + fold final in Hsent. rewrite (Push_prepared be choices tbl h events Hbeg Hprep).
      cbv zeta. fold final. destruct (errs final) as [|e es]; [destruct Hsent|].
      eexists _, _. reflexivity.
Qed.

Lemma linked_aggregate_mismatch_rejected_witness :
  exists e h',
    Push healthy [1%nat] [] (heap_of first_event foreign_event) [0%nat; 1%nat]
    = (Some e, [], h').
Proof.
  apply (linked_aggregate_mismatch_rejected healthy [1%nat] []
           (heap_of first_event foreign_event) [0%nat; 1%nat] 1%nat 0%nat).
  - simpl. right. left. reflexivity.
  - reflexivity.
  - right. simpl. discriminate.
Defined.




(** C7: when the statement of an event returns its row, [Scan] assigns the
    server's id and sequence and the stored creation date to the event, and
    the next stretch of the goroutine assigns the returned previous
    sequence; the row is in the table with these values; a zero creation date
    of the caller is replaced, in the row and in the event, by the server's
    current time, any other is kept; and when no other goroutine of the batch
    works on the same struct, the event [Push] was called with has these
    values, next to the fields it came with, when [Push] returns, whatever
    [Push] returns. *)
Theorem Push_writes_back (be : Backend) (choices : list nat) (tbl : Table)
  (h : Heap) (events : list Addr) (pre mid0 mid1 post : list (nat * Addr)) (i : nat)
  (a : Addr) (prev : Z) (r : Returning) :
  begin_fault be = None ->
  prepare_fault be = None ->
  run_order choices events
  = pre ++ (i, a) :: mid0 ++ (i, a) :: mid1 ++ (i, a) :: post ->
  ~ In i (map fst pre) ->
  ~ In i (map fst mid0) ->
  ~ In i (map fst mid1) ->
  let st0 := run_tasks be pre (start h tbl) in
  resolvePrevious (heap st0) (heap st0 a) = Some prev ->
  let st1 := run_tasks be mid0 (pushStep be st0 (i, a)) in
  let event := heap st1 a in
  snd (QueryRowContext be i (table st1) (insertArgs event prev)) = inl r ->
  let st2 := pushStep be st1 (i, a) in
  let st3 := run_tasks be mid1 st2 in
  let st4 := pushStep be st3 (i, a) in
  exists row,
    table st2 = table st1 ++ [row] /\ r = returning row /\
    id row = new_id (assigned be i) /\
    event_sequence row = new_sequence (assigned be i) /\
    previous_sequence row
    = (if CheckPreviousSequence event then Sequence_Value prev else None) /\
    creation_date row
    = (if IsZero (CreationDate event) then now (assigned be i) else CreationDate event) /\
    heap st2 a = scanned_into r event /\
    heap st4 a = set_PreviousSequence (Sequence_Scan (ret_previous_sequence r)) (heap st3 a) /\
    ((forall j, In (j, a) (run_order choices events) -> j = i) ->
     event = h a /\
     heap st4 a = written_back r (h a) /\
     snd (Push be choices tbl h events) a = written_back r (h a)) /\
    ID (written_back r event) = id row /\
    Sequence (written_back r event) = event_sequence row /\
    PreviousSequence (written_back r event) = Sequence_Scan (previous_sequence row) /\
    CreationDate (written_back r event) = creation_date row /\
    payload (written_back r event) = payload event.
Proof.
  intros Hbeg Hprep Hord Hpre Hmid0 Hmid1 st0 Hres st1 event Hq st2 st3 st4.
  subst event.
  pose proof (not_yet_run be pre h tbl i Hpre) as Hg0. fold st0 in Hg0.
  destruct (pushStep_started be st0 i a Hg0) as [(R & _)|(prev' & R & E0)];
    [congruence|].
  rewrite Hres in R. injection R as <-.
  assert (Hg1 : goroutines st1 i = Resolved prev).
  { unfold st1. rewrite run_tasks_goroutines by exact Hmid0.
    rewrite E0. cbn [goroutines]. apply set_goroutine_same. }
  destruct (pushStep_resolved be st1 i a prev Hg1) as [(failure & Q & _)|(Q & E)];
    cbv zeta in *; [rewrite Q in Hq; discriminate Hq|].
  rewrite Q in Hq. simpl in Hq. injection Hq as <-.
  set (row := inserted_row (assigned be i)
                (input_event (assigned be i) (table st1) (insertArgs (heap st1 a) prev)))
    in *.
  fold st2 in E.
  assert (Hg3 : goroutines st3 i
                = Scanned (Sequence_Scan (ret_previous_sequence (returning row)))).
  { unfold st3. rewrite run_tasks_goroutines by exact Hmid1.
    rewrite E. simpl. apply set_goroutine_same. }
  assert (E4 : st4 = mkTx (store (heap st3) a
                             (set_PreviousSequence
                                (Sequence_Scan (ret_previous_sequence (returning row)))
                                (heap st3 a)))
                       (table st3) (errs st3) (err st3)
                       (set_goroutine (goroutines st3) i
                          (match err st3 with Some _ => Reporting | None => Returned end))).
  { unfold st4. now apply pushStep_scanned. }
  assert (H4 : heap st4 a
               = set_PreviousSequence (Sequence_Scan (ret_previous_sequence (returning row)))
                   (heap st3 a)).
  { rewrite E4. simpl. apply store_same. }
  exists row. rewrite E. simpl. rewrite store_same.
  split; [reflexivity|]. split; [reflexivity|]. split; [reflexivity|].
  split; [reflexivity|].
  split; [unfold row, inserted_row, input_event; simpl;
          now destruct (CheckPreviousSequence (heap st1 a))|].
  split; [unfold row, inserted_row, input_event; simpl;
          now destruct (IsZero (CreationDate (heap st1 a)))|].
  split; [reflexivity|]. split; [exact H4|].
  split; [|repeat split].
  intros Hown.
  assert (Hown' : forall l1 l2, run_order choices events = l1 ++ l2 ->
                                forall j, In (j, a) l2 -> j = i).
  { intros l1 l2 El j Hj. apply Hown. rewrite El. apply in_or_app. now right. }
  assert (Hpa : ~ In a (map snd pre)).
  { apply (sole_owner_frame pre i a); [|exact Hpre].
    intros j Hj. apply Hown. rewrite Hord. apply in_or_app. now left. }
  assert (Hma0 : ~ In a (map snd mid0)).
  { apply (sole_owner_frame mid0 i a); [|exact Hmid0].
    intros j Hj. apply (Hown' pre _ Hord). right. apply in_or_app. now left. }
  assert (Hma1 : ~ In a (map snd mid1)).
  { apply (sole_owner_frame mid1 i a); [|exact Hmid1].
    intros j Hj. apply (Hown' pre _ Hord). right. apply in_or_app. right. right.
    apply in_or_app. now left. }
  assert (H1 : heap st1 a = h a).
  { unfold st1. rewrite run_tasks_frame by exact Hma0. rewrite E0. cbn [heap].
    unfold st0. now rewrite run_tasks_frame. }
  assert (H3 : heap st3 a = scanned_into (returning row) (heap st1 a)).
  { unfold st3. rewrite run_tasks_frame by exact Hma1.
    rewrite E. simpl. apply store_same. }
  assert (H4' : heap st4 a = written_back (returning row) (h a)).
  { rewrite H4, H3, H1. reflexivity. }
  split; [exact H1|]. split; [exact H4'|].
  rewrite Push_heap, Hbeg, Hprep.
  assert (Hrun : run_tasks be (pre ++ (i, a) :: mid0 ++ (i, a) :: mid1 ++ [(i, a)])
                   (start h tbl) = st4).
  { rewrite run_tasks_app, run_tasks_cons, run_tasks_app, run_tasks_cons,
      run_tasks_app. reflexivity. }
  assert (Hord' : run_order choices events
                  = (pre ++ (i, a) :: mid0 ++ (i, a) :: mid1 ++ [(i, a)]) ++ post).
  { rewrite Hord. repeat (rewrite <- ?app_assoc; cbn [app]). reflexivity. }
  rewrite Hord', run_tasks_app, Hrun.
  rewrite (run_tasks_past_test be post i a st4 (Hown' _ _ Hord')); [exact H4'|].
  rewrite E4. cbn [goroutines]. rewrite set_goroutine_same.
  destruct (err st3); auto.
Qed.

(** A first event pushed alone: when [Push] returns, its struct has the id
    and the sequence the server assigned and the server's time. *)
Lemma Push_writes_back_witness :
  let h := heap_of first_event first_event in
  let h' := snd (Push healthy [] [] h [0%nat]) in
  ID (h' 0%nat) = "generated-id"%string /\
  Sequence (h' 0%nat) = 1%Z /\
  CreationDate (h' 0%nat) = 1000%Z.
Proof.
  intros h h'.
  destruct (Push_writes_back healthy [] [] h [0%nat] [] [] [] [(0%nat, 0%nat)]
              0%nat 0%nat 0%Z (mkReturning "generated-id" 1 None 1000)
              eq_refl eq_refl eq_refl (fun H => H) (fun H => H) (fun H => H)
              eq_refl eq_refl)
    as (row & _ & _ & _ & _ & _ & _ & _ & _ & Hfinal & _).
  assert (Hown : forall j, In (j, 0%nat) (run_order [] [0%nat]) -> j = 0%nat).
  { intros j Hj. vm_compute in Hj.
    destruct Hj as [Hj|[Hj|[Hj|[Hj|[]]]]]; now injection Hj. }
  destruct (Hfinal Hown) as (_ & _ & HP).
  unfold h'. rewrite HP. vm_compute. repeat split.
Defined.

(** C8, as the code has it: [Push] of no event stores nothing and assigns to
    no event, but it begins a transaction, prepares the statement and
    commits: it returns what [crdb.ExecuteTx] fails with when the
    transaction cannot be begun or committed (wrapped as the [Internal]
    error "unable to store events" unless it is a classified error), the
    [Internal] error "prepare failed" when the statement cannot be prepared,
    and nil exactly when none of the three fails. *)
Theorem Push_empty (be : Backend) (choices : list nat) (tbl : Table) (h : Heap) :
  Push be choices tbl h []
  = (match begin_fault be with
     | Some e => Some (storeError e)
     | None =>
         match prepare_fault be with
         | Some e => Some (ThrowInternal (Some e) "SQL-OdXRE" "prepare failed")
         | None => option_map storeError (commit_fault be)
         end
     end, tbl, h) /\
  (fst (fst (Push be choices tbl h [])) = None <->
   begin_fault be = None /\ prepare_fault be = None /\ commit_fault be = None) /\
  (forall c, is_CaosError c = false ->
             storeError c = ThrowInternal (Some c) "SQL-DjgtG" "unable to store events").
Proof.
  split; [|split].
  - unfold Push, ExecuteTx, pushTx.
    destruct (begin_fault be); [reflexivity|].
    destruct (prepare_fault be); [reflexivity|].
    destruct (commit_fault be); reflexivity.
  - unfold Push, ExecuteTx, pushTx.
    destruct (begin_fault be); [simpl; split; [discriminate|intros (H & _); discriminate H]|].
    destruct (prepare_fault be);
      [simpl; split; [discriminate|intros (_ & H & _); discriminate H]|].
    destruct (commit_fault be); simpl; split; try discriminate; auto.
    intros (_ & _ & H); discriminate H.
  - intros c Hc. unfold storeError. now rewrite Hc.
Qed.

(** C8, as worded, fails: with a server that refuses to prepare the
    statement, [Push] of no event returns an error. *)
Lemma Push_empty_not_always_nil :
  fst (fst (Push prepare_refused [] [] (heap_of first_event first_event) []))
  = Some (ThrowInternal (Some (ErrDriver "connection refused")) "SQL-OdXRE"
            "prepare failed") /\
  fst (fst (Push prepare_refused [] [] (heap_of first_event first_event) [])) <> None.
Proof. split; [reflexivity|discriminate]. Qed.



(** ** The placeholder translator *)

Lemma str_app_assoc (x y z : string) : ((x ++ y) ++ z = x ++ (y ++ z))%string.
Proof. induction x as [|c x IH]; simpl; [reflexivity | now rewrite IH]. Qed.

Lemma str_app_nil_r (x : string) : (x ++ "" = x)%string.
Proof. induction x as [|c x IH]; simpl; [reflexivity | now rewrite IH]. Qed.

Lemma str_length_app (x y : string) :
  String.length (x ++ y) = (String.length x + String.length y)%nat.
Proof. induction x as [|c x IH]; simpl; [reflexivity | now rewrite IH]. Qed.

Lemma substring_prefix (y z : string) :
  substring 0 (String.length y) (y ++ z) = y.
Proof.
  induction y as [|c y IH]; simpl.
  - destruct z; reflexivity.
  - now rewrite IH.
Qed.

Lemma substring_middle (x y z : string) :
  substring (String.length x) (String.length y) (x ++ y ++ z) = y.
Proof.
  induction x as [|c x IH]; simpl; [apply substring_prefix | exact IH].
Qed.

(** [q[len(x):len(x)+len(y)]] cuts [y] out of [x ++ y ++ z]. *)
Lemma slice_middle (x y z : string) (lo hi : nat) :
  lo = String.length x -> hi = (lo + String.length y)%nat ->
  slice (x ++ y ++ z) lo hi = y.
Proof.
  intros -> ->. unfold slice.
  replace (String.length x + String.length y - String.length x)%nat
    with (String.length y) by lia.
  apply substring_middle.
Qed.

Lemma renumber_unmarked (i : nat) (s : string) :
  count_marker s = 0%nat -> renumber i s = s.
Proof.
  induction s as [|c s IH]; simpl; [reflexivity|].
  destruct (Ascii.eqb c "?"); [discriminate|]. intros H. now rewrite IH.
Qed.

Lemma renumber_app_unmarked (i : nat) (pfx t : string) :
  count_marker pfx = 0%nat -> (renumber i (pfx ++ t) = pfx ++ renumber i t)%string.
Proof.
  induction pfx as [|c pfx IH]; simpl; [reflexivity|].
  destruct (Ascii.eqb c "?"); [discriminate|]. intros H. now rewrite IH.
Qed.

Lemma find_marker_length (s : string) :
  forall pos, List.length (find_marker pos s) = count_marker s.
Proof.
  induction s as [|c s IH]; intros pos; simpl; [reflexivity|].
  destruct (Ascii.eqb c "?"); simpl; now rewrite IH.
Qed.

(** The first match splits the text: an unmarked prefix, the marker, and the
    rest, in which the search goes on. *)
Lemma find_marker_cons (s : string) :
  forall pos a b rest,
    find_marker pos s = (a, b) :: rest ->
    exists pfx s',
      s = (pfx ++ String "?" s')%string /\ count_marker pfx = 0%nat /\
      a = (pos + String.length pfx)%nat /\ b = S a /\
      rest = find_marker (S a) s'.
Proof.
  induction s as [|c s IH]; intros pos a b rest H; simpl in H; [discriminate|].
  destruct (Ascii.eqb c "?") eqn:E.
  - apply Ascii.eqb_eq in E. subst c. injection H as <- <- <-.
    exists ""%string, s. simpl. rewrite Nat.add_0_r. auto.
  - destruct (IH _ _ _ _ H) as (pfx & s' & -> & Hc & -> & -> & ->).
    exists (String c pfx), s'. simpl. rewrite E.
    replace (pos + S (String.length pfx))%nat with (S pos + String.length pfx)%nat by lia.
    auto.
Qed.

Lemma placeholder_loop_cons (q : string) (occ : list (nat * nat)) (i : nat)
  (l : nat * nat) (rest' : list (nat * nat)) (replaced : string) :
  placeholder_loop q occ i (l :: rest') replaced
  = placeholder_loop q occ (S i) rest'
      (replaced ++ "$" ++ Itoa (i + 1)
       ++ slice q (snd l)
            (if (i <? List.length occ - 1)%nat
             then fst (nth (i + 1) occ (0, 0)%nat)
             else String.length q))%string.
Proof. reflexivity. Qed.

(** The loop, entered at a match at offset [a] after [i] earlier ones, adds
    the renumbering of everything from that match to the end. *)
Lemma placeholder_loop_renumber (rest' : list (nat * nat)) :
  forall (s pre : string) (a i : nat) (done : list (nat * nat))
         (replaced q : string) (occ : list (nat * nat)),
    q = (pre ++ String "?" s)%string ->
    a = String.length pre ->
    occ = done ++ (a, S a) :: rest' ->
    rest' = find_marker (S a) s ->
    i = List.length done ->
    placeholder_loop q occ i ((a, S a) :: rest') replaced
    = (replaced ++ "$" ++ Itoa (S i) ++ renumber (S (S i)) s)%string.
Proof.
  induction rest' as [|[a' b'] rest'' IH];
    intros s pre a i done replaced q occ Hq Ha Hocc Hrest Hi.
  - rewrite placeholder_loop_cons. cbn [placeholder_loop snd].
    assert (Hlt : (i <? List.length occ - 1)%nat = false).
    { apply Nat.ltb_ge. rewrite Hocc, length_app. simpl. lia. }
    rewrite Hlt, Nat.add_1_r.
    assert (Hs : count_marker s = 0%nat).
    { rewrite <- (find_marker_length s (S a)), <- Hrest. reflexivity. }
    rewrite (renumber_unmarked _ s Hs).
    replace (slice q (S a) (String.length q)) with s; [reflexivity|].
    symmetry. rewrite Hq.
    replace (pre ++ String "?" s)%string with ((pre ++ "?") ++ s ++ "")%string
      by (rewrite str_app_nil_r, str_app_assoc; reflexivity).
    apply slice_middle.
    + rewrite str_length_app. simpl. lia.
    + rewrite !str_length_app. simpl. lia.
  - symmetry in Hrest.
    destruct (find_marker_cons s _ _ _ _ Hrest) as (pfx & s' & Hs & Hc & Ha' & Hb' & Hr).
    subst b'. rewrite placeholder_loop_cons. cbn [snd].
    assert (Hlt : (i <? List.length occ - 1)%nat = true).
    { apply Nat.ltb_lt. rewrite Hocc, length_app. simpl. lia. }
    rewrite Hlt.
    assert (Hnth : nth (i + 1) occ (0, 0)%nat = (a', S a')).
    { rewrite Hocc, app_nth2 by lia.
      replace (i + 1 - List.length done)%nat with 1%nat by lia. reflexivity. }
    rewrite Hnth. cbn [fst].
    assert (Hsl : slice q (S a) a' = pfx).
    { rewrite Hq, Hs.
      replace (pre ++ String "?" (pfx ++ String "?" s'))%string
        with ((pre ++ "?") ++ pfx ++ String "?" s')%string
        by (rewrite str_app_assoc; reflexivity).
      apply slice_middle.
      - rewrite str_length_app. simpl. lia.
      - lia. }
    rewrite Hsl.
    rewrite (IH s' (pre ++ "?" ++ pfx)%string a' (S i) (done ++ [(a, S a)])
               _ q occ).
    + rewrite Hs, (renumber_app_unmarked _ pfx _ Hc). simpl.
      rewrite Nat.add_1_r, str_app_assoc. simpl. now rewrite str_app_assoc.
    + rewrite Hq, Hs, !str_app_assoc. reflexivity.
    + rewrite Ha', !str_length_app. simpl. lia.
    + rewrite Hocc, <- app_assoc. reflexivity.
    + exact Hr.
    + rewrite length_app. simpl. lia.
Qed.

(** C5: the translator returns the query in which, reading left to right,
    the i-th marker "?" is replaced by "$i" (i = 1..k, in decimal) and every
    other character is kept; the matches it renumbers are exactly the k
    markers, and a query without marker is returned unchanged. *)
Theorem placeholder_renumbers (query : string) :
  placeholder query = renumber 1 query /\
  List.length (FindAllStringIndex query) = count_marker query /\
  (count_marker query = 0%nat -> placeholder query = query).
Proof.
  assert (Hmain : placeholder query = renumber 1 query).
  { unfold placeholder, FindAllStringIndex.
    destruct (find_marker 0 query) as [|[a b] rest] eqn:E.
    - simpl. symmetry. apply renumber_unmarked.
      rewrite <- (find_marker_length query 0), E. reflexivity.
    - cbn [List.length Nat.eqb nth fst].
      destruct (find_marker_cons query _ _ _ _ E) as (pfx & s & Hq & Hc & Ha & Hb & Hr).
      simpl in Ha. subst b.
      rewrite (placeholder_loop_renumber rest s pfx a 0 [] _ query ((a, S a) :: rest)
                 Hq Ha eq_refl Hr eq_refl).
      assert (Hsl : slice query 0 a = pfx).
      { rewrite Hq.
        change (pfx ++ String "?" s)%string with ("" ++ pfx ++ String "?" s)%string.
        apply slice_middle; [reflexivity | simpl; lia]. }
      rewrite Hsl, Hq, (renumber_app_unmarked _ pfx _ Hc). reflexivity. }
  split; [exact Hmain|]. split.
  - apply find_marker_length.
  - intros H. rewrite Hmain. now apply renumber_unmarked.
Qed.

Lemma placeholder_renumbers_witness :
  placeholder "SELECT 1 FROM t WHERE a = ? AND b = ANY(?)"
  = "SELECT 1 FROM t WHERE a = $1 AND b = ANY($2)" /\
  placeholder "SELECT 1 FROM t" = "SELECT 1 FROM t".
Proof.
  split.
  - rewrite (proj1 (placeholder_renumbers _)). reflexivity.
  - apply (proj2 (proj2 (placeholder_renumbers "SELECT 1 FROM t"))). reflexivity.
Defined.

(** ** The query facade *)

Lemma columnName_empty_iff (col : Field) :
  columnName col = ""%string <-> recognized col = false.
Proof. destruct col; simpl; split; intros H; try reflexivity; discriminate H. Qed.

Lemma getCondition_unknown (c : Condition) :
  recognized (cond_field c) = false -> getCondition c = ""%string.
Proof.
  intros H. apply columnName_empty_iff in H. unfold getCondition. now rewrite H.
Qed.

Lemma buildQuery_unknown (sq : SearchQuery) (c : Condition) :
  In c (conditions sq) -> recognized (cond_field c) = false ->
  exists sc, buildQuery sq = (""%string, [], sc).
Proof.
  intros Hin Hrec. unfold buildQuery.
  assert (Hex : existsb (fun clause => (clause =? "")%string)
                  (map getCondition (conditions sq)) = true).
  { apply existsb_exists. exists (getCondition c). split.
    - now apply in_map.
    - rewrite (getCondition_unknown c Hrec). reflexivity. }
  rewrite Hex. destruct (intent sq); eexists; reflexivity.
Qed.

(** An empty statement never reaches the client. *)
Lemma query_empty_sql (build : SearchQuery -> string * list SqlValue * Scanner)
  (client : Client) (sq : SearchQuery) (dest : Dest) (values : list SqlValue)
  (sc : Scanner) :
  build sq = (""%string, values, sc) ->
  query build client sq dest
  = (Some (ThrowInvalidArgument None "SQL-rWeBw" "invalid query factory"), dest, []).
Proof. intros H. unfold query. rewrite H. reflexivity. Qed.

(** C6: for a query with a condition on a field outside the recognized set,
    the column name of that field is the empty string, the builder returns
    the empty SQL, and [Filter] and [LatestSequence] return the
    [InvalidArgument] error "invalid query factory" without any call to the
    client. *)
Theorem unknown_field_is_invalid_argument (client : Client) (sq : SearchQuery)
  (c : Condition) :
  In c (conditions sq) ->
  recognized (cond_field c) = false ->
  let invalid := ThrowInvalidArgument None "SQL-rWeBw" "invalid query factory" in
  columnName (cond_field c) = ""%string /\
  fst (fst (buildQuery sq)) = ""%string /\
  Filter buildQuery client sq = (None, Some invalid, []) /\
  LatestSequence buildQuery client sq = (0%Z, Some invalid, []) /\
  kind_of invalid = Some InvalidArgument.
Proof.
  intros Hin Hrec invalid.
  destruct (buildQuery_unknown sq c Hin Hrec) as (sc & Hb).
  split; [now apply columnName_empty_iff|]. split; [now rewrite Hb|].
  split; [|split; [|reflexivity]].
  - unfold Filter. now rewrite (query_empty_sql buildQuery client sq _ [] sc Hb).
  - unfold LatestSequence. now rewrite (query_empty_sql buildQuery client sq _ [] sc Hb).
Qed.

Lemma unknown_field_is_invalid_argument_witness :
  Filter buildQuery no_rows_client unknown_field_query
  = (None, Some (ThrowInvalidArgument None "SQL-rWeBw" "invalid query factory"), []).
Proof.
  apply (unknown_field_is_invalid_argument no_rows_client unknown_field_query
           (mkCondition (FieldOther 99) OperationEquals (VText "x"))).
  - simpl. right. left. reflexivity.
  - reflexivity.
Defined.

(** C10: whatever the builder and the client, [Filter] returns the nil list
    whenever it returns an error; the error it returns is the one [query]
    returned; and when the statement is sent and the result set is empty it
    returns the empty, non-nil list and no error. *)
Theorem Filter_events_or_error
  (build : SearchQuery -> string * list SqlValue * Scanner)
  (client : Client) (sq : SearchQuery) (q : string) (values : list SqlValue)
  (sc : Scanner) :
  build sq = (q, values, sc) ->
  (forall events e io, Filter build client sq = (events, Some e, io) -> events = None) /\
  snd (fst (Filter build client sq))
  = fst (fst (query build client sq (DestEvents (Some [])))) /\
  (q <> ""%string -> client q values = inl [] ->
   Filter build client sq = (Some [], None, [(q, values)])).
Proof.
  intros Hb. split; [|split].
  - intros events e io. unfold Filter.
    destruct (query build client sq (DestEvents (Some []))) as [[err dest] io'].
    destruct err; intros H; [now injection H | discriminate H].
  - unfold Filter.
    destruct (query build client sq (DestEvents (Some []))) as [[err dest] io'].
    now destruct err.
  - intros Hq Hrows. unfold Filter, query. rewrite Hb.
    apply String.eqb_neq in Hq. rewrite Hq, Hrows. reflexivity.
Qed.

Lemma Filter_events_or_error_witness :
  Filter buildQuery no_rows_client (mkSearchQuery FetchEvents [])
  = (Some [], None, [(eventQuery, [])]).
Proof.
  apply (Filter_events_or_error buildQuery no_rows_client
           (mkSearchQuery FetchEvents []) eventQuery [] eventRowScanner).
  - reflexivity.
  - discriminate.
  - reflexivity.
Defined.
(** * Further properties *)

(** ** The conditional insert: what it does to the table *)

Lemma max_event_seq_snoc (tbl : Table) (r : Row) (aty aid : string) :
  max_event_seq (tbl ++ [r]) aty aid
  = if (aggregate_type r =? aty)%string && (aggregate_id r =? aid)%string
    then Some (match max_event_seq tbl aty aid with
               | None => event_sequence r
               | Some m => Z.max m (event_sequence r)
               end)
    else max_event_seq tbl aty aid.
Proof. unfold max_event_seq. rewrite fold_left_app. reflexivity. Qed.

Lemma crdbInsert_cases (srv : Assigned) (tbl : Table) (p : InsertArgs) :
  (insert_where (input_event srv tbl p) = true /\
   crdbInsert srv tbl p
   = (tbl ++ [inserted_row srv (input_event srv tbl p)],
      Some (returning (inserted_row srv (input_event srv tbl p))))) \/
  (insert_where (input_event srv tbl p) = false /\ crdbInsert srv tbl p = (tbl, None)).
Proof.
  unfold crdbInsert. destruct (insert_where (input_event srv tbl p)); auto.
Qed.

(** X1: an execution of the append statement leaves the greatest sequence of
    every other aggregate as it was, and never lowers that of its own; when
    it inserts, the greatest sequence of its aggregate becomes the larger of
    the old one and the sequence the server assigned. *)
Theorem crdbInsert_moves_one_aggregate (srv : Assigned) (tbl : Table) (p : InsertArgs)
  (aty aid : string) :
  let tbl' := fst (crdbInsert srv tbl p) in
  let own := max_event_seq tbl (arg_aggregate_type p) (arg_aggregate_id p) in
  let own' := max_event_seq tbl' (arg_aggregate_type p) (arg_aggregate_id p) in
  (aty <> arg_aggregate_type p \/ aid <> arg_aggregate_id p ->
   max_event_seq tbl' aty aid = max_event_seq tbl aty aid) /\
  (forall m, own = Some m -> exists m', own' = Some m' /\ (m <= m')%Z) /\
  (snd (crdbInsert srv tbl p) <> None ->
   own' = Some (match own with
                | None => new_sequence srv
                | Some m => Z.max m (new_sequence srv)
                end)).
Proof.
  intros tbl' own own'. subst tbl' own own'.
  destruct (crdbInsert_cases srv tbl p) as [(_ & E)|(_ & E)]; rewrite E; simpl.
  - rewrite !max_event_seq_snoc. unfold inserted_row, input_event; simpl.
    rewrite !String.eqb_refl. simpl. split; [|split].
    + intros Hne.
      assert (Hb : ((arg_aggregate_type p =? aty)%string
                    && (arg_aggregate_id p =? aid)%string) = false).
      { apply andb_false_iff.
        destruct Hne as [H|H]; [left|right]; apply String.eqb_neq; congruence. }
      now rewrite Hb.
    + intros m ->. eexists. split; [reflexivity|]. lia.
    + reflexivity.
  - split; [reflexivity|]. split; [|intros H; now elim H].
    intros m ->. exists m. split; [reflexivity|lia].
Qed.

Lemma crdbInsert_moves_one_aggregate_witness :
  max_event_seq (fst (crdbInsert (server_at 4) [row_agg1_3; row_agg2_9]
                        (checked_args (Some 3%Z)))) "user" "agg2" = Some 9%Z /\
  max_event_seq (fst (crdbInsert (server_at 4) [row_agg1_3; row_agg2_9]
                        (checked_args (Some 3%Z)))) "user" "agg1" = Some 4%Z.
Proof.
  destruct (crdbInsert_moves_one_aggregate (server_at 4) [row_agg1_3; row_agg2_9]
              (checked_args (Some 3%Z)) "user" "agg2") as (Hother & _ & Hown).
  assert (Hne : "user"%string <> arg_aggregate_type (checked_args (Some 3%Z)) \/
                "agg2"%string <> arg_aggregate_id (checked_args (Some 3%Z))).
  { right. vm_compute. discriminate. }
  assert (Hins : snd (crdbInsert (server_at 4) [row_agg1_3; row_agg2_9]
                        (checked_args (Some 3%Z))) <> None).
  { vm_compute. discriminate. }
  specialize (Hother Hne). specialize (Hown Hins).
  vm_compute in Hother, Hown. vm_compute. split; assumption.
Defined.

(** X2: the row an append inserts stores NULL as previous sequence when the
    check is disabled, and otherwise the greatest sequence its aggregate had
    before the insert (NULL for the first row of an aggregate); the id, the
    sequence, the previous sequence and the creation date it returns are
    those of the stored row. *)
Theorem crdbInsert_stores_predecessor (srv : Assigned) (tbl : Table) (p : InsertArgs)
  (tbl' : Table) (ret : Returning) :
  crdbInsert srv tbl p = (tbl', Some ret) ->
  exists r,
    tbl' = tbl ++ [r] /\ ret = returning r /\
    aggregate_type r = arg_aggregate_type p /\
    aggregate_id r = arg_aggregate_id p /\
    event_sequence r = new_sequence srv /\
    previous_sequence r
    = (if arg_check_previous p
       then max_event_seq tbl (arg_aggregate_type p) (arg_aggregate_id p)
       else None).
Proof.
  intros H.
  destruct (crdbInsert_cases srv tbl p) as [(W & E)|(_ & E)]; rewrite E in H;
    [|discriminate H].
  injection H as <- <-. eexists. repeat split.
  unfold inserted_row; simpl.
  apply insert_where_iff in W. simpl in W.
  destruct (arg_check_previous p); simpl; [|reflexivity].
  destruct W as [W|W]; [discriminate W | now symmetry].
Qed.

Lemma crdbInsert_stores_predecessor_witness :
  exists r,
    [row_agg1_3; row_agg2_9; row_agg1_4] = [row_agg1_3; row_agg2_9] ++ [r] /\
    previous_sequence r = Some 3%Z.
Proof.
  assert (E : crdbInsert (server_at 4) [row_agg1_3; row_agg2_9] (checked_args (Some 3%Z))
              = ([row_agg1_3; row_agg2_9; row_agg1_4], Some (returning row_agg1_4))).
  { vm_compute. reflexivity. }
  destruct (crdbInsert_stores_predecessor _ _ _ _ _ E) as (r & Ht & _ & _ & _ & _ & Hp).
  exists r. split; [exact Ht|]. rewrite Hp. vm_compute. reflexivity.
Defined.

(** X3: a checked append that went through cannot be replayed: when the
    server assigned a sequence greater than those recorded for the aggregate,
    a second checked append to the same aggregate that claims the same
    previous sequence returns no row and leaves the table as it is, whatever
    the server would assign to it. *)
Theorem stale_append_returns_no_row (srv srv' : Assigned) (tbl tbl' : Table)
  (p p' : InsertArgs) (ret : Returning) :
  arg_check_previous p = true ->
  arg_check_previous p' = true ->
  arg_aggregate_type p' = arg_aggregate_type p ->
  arg_aggregate_id p' = arg_aggregate_id p ->
  arg_previous_sequence p' = arg_previous_sequence p ->
  (forall m, max_event_seq tbl (arg_aggregate_type p) (arg_aggregate_id p) = Some m ->
             (m < new_sequence srv)%Z) ->
  crdbInsert srv tbl p = (tbl', Some ret) ->
  crdbInsert srv' tbl' p' = (tbl', None).
Proof.
  intros Hc Hc' Hty Hid Hprev Hfresh H.
  destruct (crdbInsert_cases srv tbl p) as [(W & E)|(_ & E)]; rewrite E in H;
    [|discriminate H].
  injection H as <- _.
  apply insert_where_iff in W. simpl in W. rewrite Hc in W.
  destruct W as [W|W]; [discriminate W|].
  destruct (crdbInsert_cases srv' (tbl ++ [inserted_row srv (input_event srv tbl p)]) p')
    as [(W' & _)|(_ & E')]; [exfalso | exact E'].
  apply insert_where_iff in W'. simpl in W'. rewrite Hc' in W'.
  destruct W' as [W'|W']; [discriminate W'|].
  rewrite Hty, Hid, Hprev, max_event_seq_snoc in W'.
  unfold inserted_row, input_event in W'; simpl in W'.
  rewrite !String.eqb_refl in W'. simpl in W'. rewrite <- W in W'.
  destruct (max_event_seq tbl (arg_aggregate_type p) (arg_aggregate_id p)) as [m|] eqn:Em.
  - specialize (Hfresh m eq_refl). injection W' as W'. lia.
  - discriminate W'.
Qed.

Lemma stale_append_returns_no_row_witness :
  crdbInsert (server_at 5) [row_agg1_3; row_agg2_9; row_agg1_4] (checked_args (Some 3%Z))
  = ([row_agg1_3; row_agg2_9; row_agg1_4], None).
Proof.
  assert (E : crdbInsert (server_at 4) [row_agg1_3; row_agg2_9] (checked_args (Some 3%Z))
              = ([row_agg1_3; row_agg2_9; row_agg1_4], Some (returning row_agg1_4))).
  { vm_compute. reflexivity. }
  assert (Hfresh : forall m,
             max_event_seq [row_agg1_3; row_agg2_9]
               (arg_aggregate_type (checked_args (Some 3%Z)))
               (arg_aggregate_id (checked_args (Some 3%Z))) = Some m ->
             (m < new_sequence (server_at 4))%Z).
  { intros m Hm. vm_compute in Hm. injection Hm as <-. vm_compute. reflexivity. }
  exact (stale_append_returns_no_row (server_at 4) (server_at 5) _ _
           (checked_args (Some 3%Z)) (checked_args (Some 3%Z)) _
           eq_refl eq_refl eq_refl eq_refl eq_refl Hfresh E).
Defined.

(** X4: appends chain: after an append went through with a sequence at least
    as great as those recorded for its aggregate, an append to the same
    aggregate that claims this sequence as the previous one inserts a row,
    with the check enabled or not. *)
Theorem chained_append_inserts (srv srv' : Assigned) (tbl tbl' : Table)
  (p p' : InsertArgs) (ret : Returning) :
  arg_aggregate_type p' = arg_aggregate_type p ->
  arg_aggregate_id p' = arg_aggregate_id p ->
  arg_previous_sequence p' = Some (ret_event_sequence ret) ->
  (forall m, max_event_seq tbl (arg_aggregate_type p) (arg_aggregate_id p) = Some m ->
             (m <= new_sequence srv)%Z) ->
  crdbInsert srv tbl p = (tbl', Some ret) ->
  exists r,
    crdbInsert srv' tbl' p' = (tbl' ++ [r], Some (returning r)) /\
    event_sequence r = new_sequence srv' /\
    previous_sequence r
    = (if arg_check_previous p' then Some (ret_event_sequence ret) else None).
Proof.
  intros Hty Hid Hprev Hfresh H.
  destruct (crdbInsert_cases srv tbl p) as [(_ & E)|(_ & E)]; rewrite E in H;
    [|discriminate H].
  injection H as <- <-.
  set (tbl1 := tbl ++ [inserted_row srv (input_event srv tbl p)]) in *.
  assert (Hmax : max_event_seq tbl1 (arg_aggregate_type p') (arg_aggregate_id p')
                 = Some (new_sequence srv)).
  { unfold tbl1. rewrite Hty, Hid, max_event_seq_snoc.
    unfold inserted_row, input_event; simpl. rewrite !String.eqb_refl. simpl.
    destruct (max_event_seq tbl (arg_aggregate_type p) (arg_aggregate_id p)) as [m|] eqn:Em;
      [|reflexivity].
    specialize (Hfresh m eq_refl). f_equal. lia. }
  destruct (crdbInsert_cases srv' tbl1 p') as [(_ & E')|(W' & _)].
  - eexists. split; [exact E'|]. split; [reflexivity|].
    unfold inserted_row, input_event; simpl. rewrite Hprev.
    now destruct (arg_check_previous p').
  - exfalso.
    assert (Ht : insert_where (input_event srv' tbl1 p') = true).
    { apply insert_where_iff. right. simpl. rewrite Hmax, Hprev. reflexivity. }
    congruence.
Qed.

Lemma chained_append_inserts_witness :
  exists r,
    crdbInsert (server_at 5) [row_agg1_3; row_agg2_9; row_agg1_4] (checked_args (Some 4%Z))
    = ([row_agg1_3; row_agg2_9; row_agg1_4] ++ [r], Some (returning r)) /\
    event_sequence r = new_sequence (server_at 5).
Proof.
  assert (E : crdbInsert (server_at 4) [row_agg1_3; row_agg2_9] (checked_args (Some 3%Z))
              = ([row_agg1_3; row_agg2_9; row_agg1_4], Some (returning row_agg1_4))).
  { vm_compute. reflexivity. }
  assert (Hfresh : forall m,
             max_event_seq [row_agg1_3; row_agg2_9]
               (arg_aggregate_type (checked_args (Some 3%Z)))
               (arg_aggregate_id (checked_args (Some 3%Z))) = Some m ->
             (m <= new_sequence (server_at 4))%Z).
  { intros m Hm. vm_compute in Hm. injection Hm as <-. vm_compute. discriminate. }
  destruct (chained_append_inserts (server_at 4) (server_at 5) _ _
              (checked_args (Some 3%Z)) (checked_args (Some 4%Z))
              (returning row_agg1_4)
              eq_refl eq_refl eq_refl Hfresh E) as (r & E' & Hs & _).
  exists r. split; [exact E' | exact Hs].
Defined.

(** ** The append engine: what holds at every moment *)

Lemma count_upto_const (P : Goroutine -> bool) (g : Goroutine) (n : nat) :
  P g = true -> count_upto P (fun _ => g) n = n.
Proof. intros H. induction n as [|n IH]; simpl; [reflexivity|]. now rewrite H, IH. Qed.

Lemma count_upto_set_outside (P : Goroutine -> bool) (gs : nat -> Goroutine)
  (i : nat) (g : Goroutine) (n : nat) :
  (n <= i)%nat -> count_upto P (set_goroutine gs i g) n = count_upto P gs n.
Proof.
  induction n as [|n IH]; intros Hn; simpl; [reflexivity|].
  rewrite set_goroutine_other by lia. rewrite IH by lia. reflexivity.
Qed.

Lemma count_upto_set (P : Goroutine -> bool) (gs : nat -> Goroutine)
  (i : nat) (g : Goroutine) (n : nat) :
  (i < n)%nat ->
  (count_upto P (set_goroutine gs i g) n + (if P (gs i) then 1 else 0)
   = count_upto P gs n + (if P g then 1 else 0))%nat.
Proof.
  induction n as [|n IH]; intros Hi; [lia|]. simpl.
  destruct (Nat.eq_dec i n) as [->|Hne].
  - rewrite set_goroutine_same, count_upto_set_outside by lia. lia.
  - rewrite set_goroutine_other by congruence.
    assert (Hlt : (i < n)%nat) by lia. specialize (IH Hlt). lia.
Qed.

Lemma In_tasks_inv (events : list Addr) (i : nat) (a : Addr) :
  In (i, a) (tasks events) -> In a events /\ (i < List.length events)%nat.
Proof.
  intros H. split.
  - unfold tasks in H. now apply in_combine_r in H.
  - apply (in_map fst) in H. rewrite tasks_fst in H. apply in_seq in H. simpl in H. lia.
Qed.

Lemma resolvePrevious_none_linked (h h' : Heap) (a : Addr) :
  (forall b, payload (h' b) = payload (h b)) ->
  resolvePrevious h' (h' a) = None -> linked_to_other_aggregate h a.
Proof.
  intros Hp Hres. unfold resolvePrevious in Hres.
  pose proof (Hp a) as Ha. unfold payload in Ha.
  injection Ha as _ _ _ _ _ Haid Haty _ _ Hpe.
  destruct (PreviousEvent (h' a)) as [p|] eqn:Hprev; [|discriminate Hres].
  pose proof (Hp p) as Hpp. unfold payload in Hpp.
  injection Hpp as _ _ _ _ _ Hpid Hpty _ _ _.
  exists p. split; [now symmetry|].
  rewrite Haid, Haty, Hpid, Hpty in Hres.
  destruct (AggregateType (h p) =? AggregateType (h a))%string eqn:E1; simpl in Hres.
  - destruct (AggregateID (h p) =? AggregateID (h a))%string eqn:E2; simpl in Hres;
      [discriminate Hres|].
    right. now apply String.eqb_neq.
  - left. now apply String.eqb_neq.
Qed.

Lemma QueryRowContext_failure (be : Backend) (i : nat) (tbl tbl' : Table)
  (args : InsertArgs) (c : error) :
  QueryRowContext be i tbl args = (tbl', inr c) -> statement_failure be c.
Proof.
  intros Q.
  destruct (QueryRowContext_cases be i tbl args)
    as [(e & Hf & Q')|[(_ & _ & Q')|(_ & _ & Q')]]; cbv zeta in Q'; rewrite Q' in Q.
  - injection Q as _ <-. right. now exists i.
  - injection Q as _ <-. now left.
  - discriminate Q.
Qed.

Lemma push_invariant_start (be : Backend) (h : Heap) (tbl : Table) (events : list Addr) :
  push_invariant be h tbl events (start h tbl).
Proof.
  unfold push_invariant, start; simpl. repeat split; try constructor; try discriminate.
  - exists []. rewrite app_nil_r. repeat split; [constructor|].
    rewrite count_upto_const by reflexivity. simpl. lia.
  - rewrite count_upto_const by reflexivity. lia.
Qed.

Lemma push_invariant_step (be : Backend) (h : Heap) (tbl : Table) (events : list Addr)
  (st : TxState) (i : nat) (a : Addr) :
  In (i, a) (tasks events) ->
  push_invariant be h tbl events st ->
  push_invariant be h tbl events (pushStep be st (i, a)).
Proof.
  intros Hin (Hpay & Hout & Herr & Hrep & (rows & Htbl & Hrows & Hcr) & Hce).
  destruct (In_tasks_inv events i a Hin) as (Ha & Hi).
  assert (Hpay' : forall b, payload (heap (pushStep be st (i, a)) b) = payload (h b)).
  { intros b. rewrite <- Hpay. apply pushStep_heap. }
  assert (Hout' : forall b, ~ In b events -> heap (pushStep be st (i, a)) b = h b).
  { intros b Hb. rewrite <- (Hout b Hb). apply pushStep_heap. intros ->. now apply Hb. }
  unfold push_invariant. split; [exact Hpay'|]. split; [exact Hout'|].
  clear Hpay' Hout'.
  destruct (goroutines st i) as [|prev|prev| |] eqn:Hg.
  - pose proof (count_upto_set before_statement (goroutines st) i) as Cs.
    pose proof (count_upto_set not_returned (goroutines st) i) as Cn.
    rewrite Hg in Cs, Cn. simpl in Cs, Cn.
    destruct (pushStep_started be st i a Hg) as [(R & E)|(prev & _ & E)];
      rewrite E; simpl.
    + specialize (Cs Returned _ Hi). specialize (Cn Returned _ Hi). simpl in Cs, Cn.
      split; [exact Herr|]. split; [|split].
      * apply Forall_app. split; [exact Hrep|]. constructor; [|constructor].
        right. split; [reflexivity|]. exists a. split; [exact Ha|].
        now apply (resolvePrevious_none_linked h (heap st) a).
      * exists rows. repeat split; try assumption. lia.
      * rewrite length_app. simpl. lia.
    + specialize (Cs (Resolved prev) _ Hi). specialize (Cn (Resolved prev) _ Hi).
      simpl in Cs, Cn.
      split; [exact Herr|]. split; [exact Hrep|]. split.
      * exists rows. repeat split; try assumption. lia.
      * lia.
  - pose proof (count_upto_set before_statement (goroutines st) i) as Cs.
    pose proof (count_upto_set not_returned (goroutines st) i) as Cn.
    rewrite Hg in Cs, Cn. simpl in Cs, Cn.
    destruct (pushStep_resolved be st i a prev Hg) as [(c & Q & E)|(_ & E)];
      cbv zeta in *; rewrite E; simpl.
    + specialize (Cs (Scanned prev) _ Hi). specialize (Cn (Scanned prev) _ Hi).
      simpl in Cs, Cn.
      split; [|split; [exact Hrep|split]].
      * intros c' [= <-]. now apply (QueryRowContext_failure be i _ _ _ _ Q).
      * exists rows. repeat split; try assumption. lia.
      * lia.
    + match goal with
      | |- context [ Scanned ?v ] =>
          specialize (Cs (Scanned v) _ Hi); specialize (Cn (Scanned v) _ Hi)
      end.
      simpl in Cs, Cn.
      split; [discriminate|]. split; [exact Hrep|]. split.
      * eexists (rows ++ [_]). rewrite Htbl, <- app_assoc. split; [reflexivity|].
        split.
        -- apply Forall_app. split; [exact Hrows|]. constructor; [|constructor].
           exists (i, a). split; [exact Hin|].
           pose proof (Hpay a) as Hpa. unfold payload in Hpa.
           injection Hpa as Hty Hda Hes Heu Hve Hid Haty Hro _ _.
           unfold row_of_goroutine; simpl. repeat split; assumption.
        -- rewrite length_app. simpl. lia.
      * lia.
  - rewrite (pushStep_scanned be st i a prev Hg). simpl.
    set (g := match err st with Some _ => Reporting | None => Returned end).
    pose proof (count_upto_set before_statement (goroutines st) i g _ Hi) as Cs.
    pose proof (count_upto_set not_returned (goroutines st) i g _ Hi) as Cn.
    rewrite Hg in Cs, Cn.
    assert (Hs : before_statement g = false) by (unfold g; now destruct (err st)).
    rewrite Hs in Cs. simpl in Cs, Cn.
    split; [exact Herr|]. split; [exact Hrep|]. split.
    + exists rows. repeat split; try assumption. lia.
    + destruct (not_returned g); lia.
  - pose proof (count_upto_set before_statement (goroutines st) i Returned _ Hi) as Cs.
    pose proof (count_upto_set not_returned (goroutines st) i Returned _ Hi) as Cn.
    rewrite Hg in Cs, Cn. simpl in Cs, Cn.
    rewrite (pushStep_reporting be st i a Hg). simpl.
    split; [exact Herr|]. split; [|split].
    + apply Forall_app. split; [exact Hrep|]. constructor; [|constructor].
      left. exists (err st). split; [exact Herr | reflexivity].
    + exists rows. repeat split; try assumption. lia.
    + rewrite length_app. simpl. lia.
  - rewrite (pushStep_returned be st i a Hg).
    split; [exact Herr|]. split; [exact Hrep|]. split; [|exact Hce].
    exists rows. repeat split; assumption.
Qed.

Lemma push_invariant_run (be : Backend) (h : Heap) (tbl : Table) (events : list Addr)
  (order : list (nat * Addr)) :
  forall st,
    (forall t, In t order -> In t (tasks events)) ->
    push_invariant be h tbl events st ->
    push_invariant be h tbl events (run_tasks be order st).
Proof.
  induction order as [|[i a] order IH]; intros st Hsub Hinv; [exact Hinv|].
  rewrite run_tasks_cons. apply IH.
  - intros t Ht. apply Hsub. now right.
  - apply push_invariant_step; [|exact Hinv]. apply Hsub. now left.
Qed.

(** The invariant holds when all goroutines have run, and at every moment
    before. *)
Lemma push_invariant_prefix (be : Backend) (choices : list nat) (h : Heap) (tbl : Table)
  (events : list Addr) (k : nat) :
  push_invariant be h tbl events
    (run_tasks be (firstn k (run_order choices events)) (start h tbl)).
Proof.
  apply push_invariant_run; [|apply push_invariant_start].
  intros t Ht. apply (In_run_order choices).
  rewrite <- (firstn_skipn k (run_order choices events)). apply in_or_app. now left.
Qed.

Lemma push_invariant_final (be : Backend) (choices : list nat) (h : Heap) (tbl : Table)
  (events : list Addr) :
  push_invariant be h tbl events
    (run_tasks be (run_order choices events) (start h tbl)).
Proof.
  apply push_invariant_run; [|apply push_invariant_start].
  intros t Ht. now apply (In_run_order choices).
Qed.

(** X5: every error [Push] returns is one of four.  It is the error
    [crdb.ExecuteTx] fails with when the transaction cannot be begun, or,
    no goroutine having sent an error, cannot be committed: wrapped as the
    [Internal] error "unable to store events" unless it is a classified
    error already.  It is the [Internal] error "prepare failed" wrapping the
    error of [PrepareContext].  It is the [Internal] error "unable to create
    event" wrapping what a goroutine read in [err] when it sent: nil,
    [sql.ErrNoRows] or the error a statement of the batch ended with.  Or it
    is the [PreconditionFailed] error "aggregate of linked events unequal",
    and then an event of the batch is linked to an event of another
    aggregate.  With any of them the table is the one before the call. *)
Theorem Push_error_is_classified (be : Backend) (choices : list nat) (tbl : Table)
  (h : Heap) (events : list Addr) (e : error) (tbl' : Table) (h' : Heap) :
  Push be choices tbl h events = (Some e, tbl', h') ->
  tbl' = tbl /\
  ((exists c, begin_fault be = Some c /\ e = storeError c) \/
   (begin_fault be = None /\
    exists c, prepare_fault be = Some c /\
              e = ThrowInternal (Some c) "SQL-OdXRE" "prepare failed") \/
   (begin_fault be = None /\ prepare_fault be = None /\
    reported_by_goroutine be h events e) \/
   (begin_fault be = None /\ prepare_fault be = None /\
    errs (run_tasks be (run_order choices events) (start h tbl)) = [] /\
    exists c, commit_fault be = Some c /\ e = storeError c)) /\
  (forall c, storeError c
             = if is_CaosError c then c
               else ThrowInternal (Some c) "SQL-DjgtG" "unable to store events").
Proof.
  intros HP. split; [now apply (Push_error_restores _ _ _ _ _ _ _ _ HP)|].
  split; [|intros c; unfold storeError; now destruct (is_CaosError c)].
  destruct (begin_fault be) as [c|] eqn:Hbeg.
  { rewrite (Push_begin_failed be choices tbl h events c Hbeg) in HP.
    injection HP as <- _ _. left. now exists c. }
  right. destruct (prepare_fault be) as [c|] eqn:Hprep.
  - rewrite (Push_prepare_failed be choices tbl h events c Hbeg Hprep) in HP.
    injection HP as <- _ _. left. split; [reflexivity|]. now exists c.
  - right. rewrite (Push_prepared be choices tbl h events Hbeg Hprep) in HP.
    cbv zeta in HP.
    destruct (push_invariant_final be choices h tbl events) as (_ & _ & _ & Hrep & _).
    destruct (errs (run_tasks be (run_order choices events) (start h tbl)))
      as [|e0 es].
    + right. destruct (commit_fault be) as [c|]; [|discriminate HP].
      simpl in HP. injection HP as <- _ _.
      repeat split. now exists c.
    + injection HP as <- _ _. left. repeat split.
      now apply Forall_inv in Hrep.
Qed.

Lemma Push_error_is_classified_witness :
  exists c,
    commit_fault commit_refused = Some c /\
    ThrowInternal (Some (ErrDriver "connection reset")) "SQL-DjgtG" "unable to store events"
    = storeError c.
Proof.
  destruct (Push_error_is_classified commit_refused [] []
              (heap_of first_event first_event) [0%nat] _ _ _ eq_refl)
    as (_ & [(c & Hc & _)|[(_ & c & Hc & _)|[(_ & _ & H)|(_ & _ & _ & H)]]] & _).
  - discriminate Hc.
  - discriminate Hc.
  - exfalso. destruct H as [(read & _ & H)|(H & _)]; discriminate H.
  - exact H.
Defined.

(** X6: [Push] assigns to the structs of the batch only, and in them to the
    fields ID, Sequence, PreviousSequence and CreationDate only: the type,
    data, editors, version, aggregate, owner, check flag and link of every
    event are as before the call, whatever [Push] returns. *)
Theorem Push_assigns_results_only (be : Backend) (choices : list nat) (tbl : Table)
  (h : Heap) (events : list Addr) :
  let h' := snd (Push be choices tbl h events) in
  (forall b, payload (h' b) = payload (h b)) /\
  (forall b, ~ In b events -> h' b = h b).
Proof.
  intros h'. subst h'. rewrite Push_heap.
  destruct (begin_fault be); [auto|]. destruct (prepare_fault be); [auto|].
  destruct (push_invariant_final be choices h tbl events) as (Hpay & Hout & _).
  auto.
Qed.

(** X7: [Push] only appends: the table it leaves is the old one followed by
    new rows, none when it returns an error, at most one for each event of
    the batch otherwise, and every new row has the payload of an event of the
    batch and the id and sequence the server assigned to its goroutine. *)
Theorem Push_only_appends (be : Backend) (choices : list nat) (tbl : Table)
  (h : Heap) (events : list Addr) :
  exists rows,
    snd (fst (Push be choices tbl h events)) = tbl ++ rows /\
    (fst (fst (Push be choices tbl h events)) <> None -> rows = []) /\
    (List.length rows <= List.length events)%nat /\
    Forall (fun r => exists t, In t (tasks events) /\ row_of_goroutine be h t r) rows.
Proof.
  assert (Hnone : forall failure h',
             Push be choices tbl h events = (failure, tbl, h') ->
             exists rows,
               snd (fst (Push be choices tbl h events)) = tbl ++ rows /\
               (fst (fst (Push be choices tbl h events)) <> None -> rows = []) /\
               (List.length rows <= List.length events)%nat /\
               Forall (fun r => exists t, In t (tasks events) /\ row_of_goroutine be h t r)
                 rows).
  { intros failure h' E. rewrite E. exists []. rewrite app_nil_r. simpl.
    split; [reflexivity|]. split; [reflexivity|]. split; [lia | constructor]. }
  destruct (begin_fault be) as [c|] eqn:Hbeg.
  { eapply Hnone. apply (Push_begin_failed be choices tbl h events c Hbeg). }
  destruct (prepare_fault be) as [c|] eqn:Hprep.
  { eapply Hnone. apply (Push_prepare_failed be choices tbl h events c Hbeg Hprep). }
  pose proof (Push_prepared be choices tbl h events Hbeg Hprep) as HP. cbv zeta in HP.
  destruct (push_invariant_final be choices h tbl events)
    as (_ & _ & _ & _ & (rows & Htbl & Hrows & Hc) & _).
  destruct (errs (run_tasks be (run_order choices events) (start h tbl))) as [|e0 es].
  - destruct (commit_fault be) as [c|]; [eapply Hnone; exact HP|].
    rewrite HP. exists rows. simpl. split; [exact Htbl|]. split; [intros H; now elim H|].
    split; [lia | exact Hrows].
  - eapply Hnone. destruct (commit_fault be); exact HP.
Qed.

(** X8: the channel [errs], made with room for one error for each event,
    never holds more: at no moment of the run, with any order of the
    goroutines, is the number of errors sent greater than the number of
    events, so that no goroutine ever waits to send. *)
Theorem errs_within_capacity (be : Backend) (choices : list nat) (tbl : Table)
  (h : Heap) (events : list Addr) (k : nat) :
  (List.length
     (errs (run_tasks be (firstn k (run_order choices events)) (start h tbl)))
   <= List.length events)%nat.
Proof.
  destruct (push_invariant_prefix be choices h tbl events k)
    as (_ & _ & _ & _ & _ & Hc).
  lia.
Qed.

(** ** The append engine: one event *)

Lemma run_order_single (choices : list nat) (a : Addr) :
  run_order choices [a] = [(0%nat, a); (0%nat, a); (0%nat, a); (0%nat, a)].
Proof.
  pose proof (run_order_perm choices [a]) as H. simpl in H.
  assert (Hall : Forall (eq (0%nat, a)) (run_order choices [a])).
  { apply Forall_forall. intros t Ht. apply (Permutation_in _ H) in Ht.
    destruct Ht as [Ht|[Ht|[Ht|[Ht|[]]]]]; exact Ht. }
  apply Forall_eq_repeat in Hall. rewrite (Permutation_length H) in Hall. exact Hall.
Qed.

(** X10: a batch of one event leaves nothing to the scheduler.  With the
    transaction begun and the statement prepared, [Push] returns the
    precondition failure and assigns nothing when the event is linked to
    another aggregate; it returns the [Internal] error wrapping the failure
    of the statement, stores nothing and assigns the resolved previous
    sequence when the statement fails or returns no row; and when the
    statement returns its row it leaves the returned values in the event
    and tries to commit: it returns nil with the table of the statement
    when the commit succeeds, and the error of the commit, wrapped as in
    lines 168 to 170, with the table as before, when it fails. *)
Theorem Push_of_one_event (be : Backend) (choices : list nat) (tbl : Table)
  (h : Heap) (a : Addr) :
  begin_fault be = None ->
  prepare_fault be = None ->
  match resolvePrevious h (h a) with
  | None =>
      Push be choices tbl h [a]
      = (Some (ThrowPreconditionFailed None "SQL-J55uR"
                 "aggregate of linked events unequal"), tbl, h)
  | Some prev =>
      match QueryRowContext be 0 tbl (insertArgs (h a) prev) with
      | (tbl', inl r) =>
          fst (Push be choices tbl h [a])
          = match commit_fault be with
            | Some c => (Some (storeError c), tbl)
            | None => (None, tbl')
            end /\
          snd (Push be choices tbl h [a]) a = written_back r (h a)
      | (_, inr c) =>
          fst (Push be choices tbl h [a])
          = (Some (ThrowInternal (Some c) "SQL-SBP37" "unable to create event"), tbl) /\
          snd (Push be choices tbl h [a]) a = set_PreviousSequence prev (h a)
      end
  end.
Proof.
  intros Hbeg Hprep.
  pose proof (Push_prepared be choices tbl h [a] Hbeg Hprep) as HP. cbv zeta in HP.
  rewrite run_order_single, !run_tasks_cons in HP.
  assert (Hnil : forall st, run_tasks be [] st = st) by reflexivity.
  rewrite Hnil in HP. clear Hnil.
  destruct (pushStep_started be (start h tbl) 0 a eq_refl) as [(R & E)|(prev & R & E)];
    cbn [start heap table errs err goroutines] in *; rewrite R; rewrite E in HP.
  - revert HP. do 3 next_stretch. intros HP. cbn [hd_error app] in HP. exact HP.
  - match type of HP with
    | context [pushStep be (mkTx ?h0 ?t0 ?es0 ?e0 ?g0) (0%nat, a)] =>
        destruct (pushStep_resolved be (mkTx h0 t0 es0 e0 g0) 0 a prev
                    (set_goroutine_same _ _ _)) as [(c & Q & E')|(Q & E')];
        cbv zeta in *; cbn [heap table errs err goroutines] in Q, E';
        rewrite Q; rewrite E' in HP
    end.
    + revert HP. do 2 next_stretch. intros HP.
      cbn [app] in HP. rewrite HP.
      split; [reflexivity|]. cbn [snd]. apply store_same.
    + revert HP. do 2 next_stretch. intros HP.
      rewrite HP. cbn [fst snd].
      split; [now destruct (commit_fault be)|]. rewrite !store_same. reflexivity.
Qed.

Lemma Push_of_one_event_witness :
  fst (Push healthy [7%nat] [] (heap_of stale_event stale_event) [0%nat])
  = (Some (ThrowInternal (Some ErrNoRows) "SQL-SBP37" "unable to create event"), []).
Proof.
  exact (proj1 (Push_of_one_event healthy [7%nat] [] (heap_of stale_event stale_event)
                  0%nat eq_refl eq_refl)).
Defined.

(** ** The append engine: what a report can wrap *)

(** X21: the error a goroutine sends can wrap nil.  In a batch of two events
    of one aggregate without rows, the first claims sequence 5 and its
    statement returns no row; its goroutine tests [err] and finds
    [sql.ErrNoRows]; the [Scan] of the second, which succeeds, then sets
    [err] to nil; the first goroutine reads [err] again to wrap it and sends
    the [Internal] error "unable to create event" without a parent.  [Push]
    returns that error and stores nothing. *)
Theorem Push_report_can_wrap_nil :
  let h := heap_of stale_event first_event in
  run_order [0; 1; 2; 0; 0; 1]%nat [0%nat; 1%nat]
  = [(0, 0); (0, 0); (0, 0); (1, 1); (1, 1); (0, 0); (1, 1); (1, 1)]%nat /\
  err (run_tasks healthy [(0, 0); (0, 0); (0, 0)]%nat (start h [])) = Some ErrNoRows /\
  goroutines (run_tasks healthy [(0, 0); (0, 0); (0, 0)]%nat (start h [])) 0%nat
  = Reporting /\
  err (run_tasks healthy [(0, 0); (0, 0); (0, 0); (1, 1); (1, 1)]%nat (start h [])) = None /\
  fst (Push healthy [0; 1; 2; 0; 0; 1]%nat [] h [0%nat; 1%nat])
  = (Some (ThrowInternal None "SQL-SBP37" "unable to create event"), []).
Proof. repeat split. Qed.

(** ** The append engine: goroutines one after the other *)

(** X20: with the transaction begun and the statement prepared, when no
    goroutine runs between the [Scan] of another and its sending, [Push] is
    all or nothing.  Either an error was sent, and [Push] returns the first
    one and leaves the table as it was.  Or none was, and the transaction
    holds one new row for each event of the batch, each with the payload of
    an event of the batch: [Push] then returns nil and commits them all, or,
    when the commit fails, returns its error and leaves the table as it
    was. *)
Theorem Push_all_or_nothing_when_not_interleaved (be : Backend) (choices : list nat)
  (tbl : Table) (h : Heap) (events : list Addr) (ts : list (nat * Addr)) :
  begin_fault be = None ->
  prepare_fault be = None ->
  run_order choices events = serial ts ->
  let final := run_tasks be (run_order choices events) (start h tbl) in
  match errs final with
  | e :: _ => Push be choices tbl h events = (Some e, tbl, heap final)
  | [] =>
      exists rows,
        table final = tbl ++ rows /\
        List.length rows = List.length events /\
        Forall (fun r => exists t, In t (tasks events) /\ row_of_goroutine be h t r) rows /\
        Push be choices tbl h events
        = match commit_fault be with
          | Some c => (Some (storeError c), tbl, heap final)
          | None => (None, tbl ++ rows, heap final)
          end
  end.
Proof.
  intros Hbeg Hprep Hord final.
  pose proof (Push_serial_all_or_nothing be choices tbl h events ts Hbeg Hprep Hord) as H.
  cbv zeta in H. fold final in H.
  destruct (errs final) as [|e es] eqn:Herrs; [|exact H].
  destruct H as (rows & Ht & Hlen & HP).
  destruct (push_invariant_final be choices h tbl events)
    as (_ & _ & _ & _ & (rows' & Htbl & Hrows & _) & _).
  fold final in Htbl. rewrite Ht in Htbl. apply app_inv_head in Htbl. subst rows'.
  exists rows. repeat split; assumption.
Qed.

Lemma Push_all_or_nothing_when_not_interleaved_witness :
  fst (Push healthy one_after_the_other [] (heap_of stale_event first_event)
         [0%nat; 1%nat])
  = (Some (ThrowInternal (Some ErrNoRows) "SQL-SBP37" "unable to create event"), []).
Proof.
  pose proof (Push_all_or_nothing_when_not_interleaved healthy one_after_the_other []
                (heap_of stale_event first_event) [0%nat; 1%nat]
                [(0%nat, 0%nat); (1%nat, 1%nat)] eq_refl eq_refl eq_refl) as H.
  cbv zeta in H. vm_compute errs in H.
  exact (f_equal fst H).
Defined.

(** ** The placeholder translator: further properties *)

Lemma placeholder_as_renumber (query : string) :
  placeholder query = renumber 1 query.
Proof.
  unfold placeholder, FindAllStringIndex.
  destruct (find_marker 0 query) as [|[a b] rest] eqn:E.
  - simpl. symmetry. apply renumber_unmarked.
    rewrite <- (find_marker_length query 0), E. reflexivity.
  - cbn [List.length Nat.eqb nth fst].
    destruct (find_marker_cons query _ _ _ _ E) as (pfx & s & Hq & Hc & Ha & Hb & Hr).
    simpl in Ha. subst b.
    rewrite (placeholder_loop_renumber rest s pfx a 0 [] _ query ((a, S a) :: rest)
               Hq Ha eq_refl Hr eq_refl).
    assert (Hsl : slice query 0 a = pfx).
    { rewrite Hq.
      change (pfx ++ String "?" s)%string with ("" ++ pfx ++ String "?" s)%string.
      apply slice_middle; [reflexivity | simpl; lia]. }
    rewrite Hsl, Hq, (renumber_app_unmarked _ pfx _ Hc). reflexivity.
Qed.

Lemma count_marker_app (x y : string) :
  count_marker (x ++ y) = (count_marker x + count_marker y)%nat.
Proof.
  induction x as [|c x IH]; simpl; [reflexivity|]. rewrite IH. lia.
Qed.

Lemma digits_unmarked (d : Decimal.uint) :
  count_marker (NilEmpty.string_of_uint d) = 0%nat.
Proof. induction d; simpl; assumption || reflexivity. Qed.

(** A decimal numeral contains no marker. *)
Lemma Itoa_unmarked (n : nat) : count_marker (Itoa n) = 0%nat.
Proof.
  unfold Itoa, NilZero.string_of_uint.
  destruct (Nat.to_uint n) eqn:E; try reflexivity;
    rewrite <- E; apply digits_unmarked.
Qed.

Lemma renumber_leaves_no_marker (s : string) :
  forall i, count_marker (renumber i s) = 0%nat.
Proof.
  induction s as [|c s IH]; intros i; simpl; [reflexivity|].
  destruct (Ascii.eqb c "?") eqn:E.
  - change ("$" ++ Itoa i ++ renumber (S i) s)%string
      with (String "$" (Itoa i ++ renumber (S i) s)).
    simpl. rewrite count_marker_app, Itoa_unmarked, IH. reflexivity.
  - simpl. rewrite E, IH. reflexivity.
Qed.

Lemma renumber_app (p q : string) :
  forall i, renumber i (p ++ q)
            = (renumber i p ++ renumber (i + count_marker p) q)%string.
Proof.
  induction p as [|c p IH]; intros i; simpl.
  - now rewrite Nat.add_0_r.
  - destruct (Ascii.eqb c "?").
    + rewrite IH.
      replace (i + (1 + count_marker p))%nat with (S i + count_marker p)%nat by lia.
      cbn [append]. now rewrite str_app_assoc.
    + rewrite IH. reflexivity.
Qed.

(** X11: the translated query contains no marker any more, so that
    translating it again changes nothing. *)
Theorem placeholder_leaves_no_marker (query : string) :
  count_marker (placeholder query) = 0%nat /\
  FindAllStringIndex (placeholder query) = [] /\
  placeholder (placeholder query) = placeholder query.
Proof.
  assert (H0 : count_marker (placeholder query) = 0%nat).
  { rewrite placeholder_as_renumber. apply renumber_leaves_no_marker. }
  split; [exact H0|]. split.
  - pose proof (find_marker_length (placeholder query) 0) as Hl. rewrite H0 in Hl.
    unfold FindAllStringIndex. now destruct (find_marker 0 (placeholder query)).
  - rewrite (placeholder_as_renumber (placeholder query)). now apply renumber_unmarked.
Qed.

(** X12: the translation of a query in two parts is the translation of the
    first part followed by the second part with its markers numbered on from
    the count of the first; a part without marker is passed through. *)
Theorem placeholder_of_two_parts (p q : string) :
  placeholder (p ++ q)
  = (placeholder p ++ renumber (S (count_marker p)) q)%string /\
  (count_marker q = 0%nat -> placeholder (p ++ q) = (placeholder p ++ q)%string) /\
  (count_marker p = 0%nat -> placeholder (p ++ q) = (p ++ placeholder q)%string).
Proof.
  assert (H : placeholder (p ++ q)
              = (placeholder p ++ renumber (S (count_marker p)) q)%string).
  { rewrite !placeholder_as_renumber. apply renumber_app. }
  split; [exact H|]. split.
  - intros Hq. rewrite H. now rewrite (renumber_unmarked _ q Hq).
  - intros Hp. rewrite H, Hp, !placeholder_as_renumber.
    now rewrite (renumber_unmarked _ p Hp).
Qed.

Lemma placeholder_of_two_parts_witness :
  placeholder ("SELECT 1 FROM t WHERE a = ?" ++ " ORDER BY a")
  = (placeholder "SELECT 1 FROM t WHERE a = ?" ++ " ORDER BY a")%string.
Proof.
  apply (proj1 (proj2 (placeholder_of_two_parts "SELECT 1 FROM t WHERE a = ?"
                         " ORDER BY a"))).
  reflexivity.
Defined.

(** ** The tables of the backend *)

(** X13: the column names of the recognized fields are pairwise different and
    none is empty, so that a column name stands for one field. *)
Theorem columnName_injective (col col' : Field) :
  recognized col = true ->
  recognized col' = true ->
  columnName col <> ""%string /\
  (columnName col = columnName col' -> col = col').
Proof.
  intros H H'. destruct col; try discriminate H; destruct col'; try discriminate H';
    (split; [discriminate | intros E; (reflexivity || discriminate E)]).
Qed.

Lemma columnName_injective_witness :
  columnName FieldSequence <> ""%string /\
  (columnName FieldSequence = columnName FieldEventType -> FieldSequence = FieldEventType).
Proof. apply columnName_injective; reflexivity. Defined.

(** X14: a condition format filled with a column and an operator reads
    "column operator ?", or "column operator ANY(?)" for the in-set
    operation; with a column name and an operator of the tables it contains
    exactly one marker, whatever the field and the operation.  The operator
    is empty for the operations outside the four named ones only. *)
Theorem condition_has_one_marker (col : Field) (op : Operation) (c o : string) :
  Sprintf (conditionFormat op) [c; o]
  = (c ++ " " ++ o ++ match op with OperationIn => " ANY(?)" | _ => " ?" end)%string /\
  count_marker (Sprintf (conditionFormat op) [columnName col; operation op]) = 1%nat /\
  (operation op = ""%string <-> exists code, op = OperationOther code).
Proof.
  split; [|split].
  - destruct op; reflexivity.
  - destruct op; destruct col; reflexivity.
  - destruct op as [| | | |code]; simpl; split; intros H;
      try discriminate H; try (destruct H as (code' & H); discriminate H).
    + now exists code.
    + reflexivity.
Qed.

(** ** The query facade: further properties *)

Lemma scan_rows_app (sc : Scanner) (pre rest : list (list SqlValue)) :
  forall dest,
    scan_rows sc (pre ++ rest) dest
    = match scan_rows sc pre dest with
      | (Some e, d) => (Some e, d)
      | (None, d) => scan_rows sc rest d
      end.
Proof.
  induction pre as [|row pre IH]; intros dest; simpl; [reflexivity|].
  destruct (sc row dest) as [[e|] d]; [reflexivity | apply IH].
Qed.

(** X15: [query] calls the client at most once.  When the builder returns the
    empty statement the client is not called, the destination is left as it
    is and the error is the [InvalidArgument] "invalid query factory";
    otherwise the client is called exactly once, with the statement and the
    values of the builder. *)
Theorem query_calls_client_once
  (build : SearchQuery -> string * list SqlValue * Scanner)
  (client : Client) (sq : SearchQuery) (dest : Dest) (q : string)
  (values : list SqlValue) (sc : Scanner) :
  build sq = (q, values, sc) ->
  snd (query build client sq dest) = (if (q =? "")%string then [] else [(q, values)]) /\
  (q = ""%string ->
   query build client sq dest
   = (Some (ThrowInvalidArgument None "SQL-rWeBw" "invalid query factory"), dest, [])).
Proof.
  intros Hb. unfold query. rewrite Hb. split.
  - destruct (q =? "")%string; [reflexivity|].
    destruct (client q values) as [rows|c]; [|reflexivity].
    now destruct (scan_rows sc rows dest).
  - intros ->. reflexivity.
Qed.

Lemma query_calls_client_once_witness :
  snd (query sample_builder (rows_client []) any_query (DestSequence 0))
  = [("SELECT event_sequence FROM eventstore.events"%string, [])].
Proof.
  exact (proj1 (query_calls_client_once sample_builder (rows_client []) any_query
                  (DestSequence 0) _ _ _ eq_refl)).
Defined.

(** X16: when the client fails, [query] returns the [Internal] error "unable
    to filter events" wrapping the client's error and leaves the destination
    as it is; [Filter] then returns the nil list and [LatestSequence] the
    sequence 0, both with this error. *)
Theorem client_failure_is_internal
  (build : SearchQuery -> string * list SqlValue * Scanner)
  (client : Client) (sq : SearchQuery) (dest : Dest) (q : string)
  (values : list SqlValue) (sc : Scanner) (c : error) :
  build sq = (q, values, sc) ->
  q <> ""%string ->
  client q values = inr c ->
  let failure := ThrowInternal (Some c) "SQL-IJuyR" "unable to filter events" in
  query build client sq dest = (Some failure, dest, [(q, values)]) /\
  Filter build client sq = (None, Some failure, [(q, values)]) /\
  LatestSequence build client sq = (0%Z, Some failure, [(q, values)]).
Proof.
  intros Hb Hq Hc failure. apply String.eqb_neq in Hq.
  assert (H : forall d, query build client sq d = (Some failure, d, [(q, values)])).
  { intros d. unfold query. now rewrite Hb, Hq, Hc. }
  split; [apply H|]. split.
  - unfold Filter. now rewrite H.
  - unfold LatestSequence. now rewrite H.
Qed.

Lemma client_failure_is_internal_witness :
  Filter sample_builder refusing_client any_query
  = (None,
     Some (ThrowInternal (Some (ErrDriver "connection refused")) "SQL-IJuyR"
             "unable to filter events"),
     [("SELECT event_sequence FROM eventstore.events"%string, [])]).
Proof.
  apply (client_failure_is_internal sample_builder refusing_client any_query
           (DestSequence 0) _ _ _ (ErrDriver "connection refused") eq_refl).
  - discriminate.
  - reflexivity.
Defined.

(** X17: the rows are decoded in order up to the first one the decoder
    rejects: [query] returns the decoder's error as it is, with the
    destination as the rows before left it, and the rows after are not
    looked at; [Filter] then returns the nil list, not the events decoded so
    far. *)
Theorem decoding_stops_at_first_error
  (build : SearchQuery -> string * list SqlValue * Scanner)
  (client : Client) (sq : SearchQuery) (dest d1 d2 : Dest) (q : string)
  (values : list SqlValue) (sc : Scanner) (pre post : list (list SqlValue))
  (row : list SqlValue) (e : error) :
  build sq = (q, values, sc) ->
  q <> ""%string ->
  client q values = inl (pre ++ row :: post) ->
  scan_rows sc pre dest = (None, d1) ->
  sc row d1 = (Some e, d2) ->
  query build client sq dest = (Some e, d2, [(q, values)]) /\
  (dest = DestEvents (Some []) ->
   Filter build client sq = (None, Some e, [(q, values)])).
Proof.
  intros Hb Hq Hc Hpre Hrow. apply String.eqb_neq in Hq.
  assert (H : query build client sq dest = (Some e, d2, [(q, values)])).
  { unfold query. rewrite Hb, Hq, Hc, scan_rows_app, Hpre. simpl. now rewrite Hrow. }
  split; [exact H|]. intros ->. unfold Filter. now rewrite H.
Qed.

Lemma decoding_stops_at_first_error_witness :
  Filter sample_builder (rows_client [[VInt 1]; [VNull]; [VInt 3]]) any_query
  = (None, Some (ThrowInternal None "" "unable to scan row"),
     [("SELECT event_sequence FROM eventstore.events"%string, [])]).
Proof.
  apply (decoding_stops_at_first_error sample_builder
           (rows_client [[VInt 1]; [VNull]; [VInt 3]]) any_query
           (DestEvents (Some [])) (DestEvents (Some [event_of_row [VInt 1]]))
           (DestEvents (Some [event_of_row [VInt 1]])) _ _ _
           [[VInt 1]] [[VInt 3]] [VNull] _ eq_refl).
  - discriminate.
  - reflexivity.
  - reflexivity.
  - reflexivity.
  - reflexivity.
Defined.

Lemma scan_rows_appends (sc : Scanner) (decode : list SqlValue -> Event)
  (rows : list (list SqlValue)) :
  (forall row l, In row rows ->
                 sc row (DestEvents (Some l)) = (None, DestEvents (Some (l ++ [decode row])))) ->
  forall l,
    scan_rows sc rows (DestEvents (Some l))
    = (None, DestEvents (Some (l ++ map decode rows))).
Proof.
  induction rows as [|row rows IH]; intros Hsc l; simpl.
  - now rewrite app_nil_r.
  - rewrite (Hsc row l (or_introl eq_refl)).
    rewrite IH by (intros r l' Hr; apply Hsc; now right).
    now rewrite <- app_assoc.
Qed.

(** X18: with a decoder that appends one event for each row, [Filter] returns
    one event for each row of the result set, in the order of the result set,
    and no error. *)
Theorem Filter_keeps_result_order
  (build : SearchQuery -> string * list SqlValue * Scanner)
  (client : Client) (sq : SearchQuery) (q : string) (values : list SqlValue)
  (sc : Scanner) (rows : list (list SqlValue)) (decode : list SqlValue -> Event) :
  build sq = (q, values, sc) ->
  q <> ""%string ->
  client q values = inl rows ->
  (forall row l, In row rows ->
                 sc row (DestEvents (Some l)) = (None, DestEvents (Some (l ++ [decode row])))) ->
  Filter build client sq = (Some (map decode rows), None, [(q, values)]).
Proof.
  intros Hb Hq Hc Hsc. apply String.eqb_neq in Hq.
  unfold Filter, query. rewrite Hb, Hq, Hc.
  rewrite (scan_rows_appends sc decode rows Hsc []). reflexivity.
Qed.

Lemma Filter_keeps_result_order_witness :
  Filter sample_builder (rows_client [[VInt 4]; [VInt 2]]) any_query
  = (Some [event_of_row [VInt 4]; event_of_row [VInt 2]], None,
     [("SELECT event_sequence FROM eventstore.events"%string, [])]).
Proof.
  apply (Filter_keeps_result_order sample_builder (rows_client [[VInt 4]; [VInt 2]])
           any_query _ _ _ [[VInt 4]; [VInt 2]] event_of_row eq_refl).
  - discriminate.
  - reflexivity.
  - intros row l [<-|[<-|[]]]; reflexivity.
Defined.

Lemma last_cons_default {A} (l : list A) :
  forall x d, last (x :: l) d = last l x.
Proof.
  induction l as [|y l IH]; intros x d; [reflexivity|].
  change (last (x :: y :: l) d) with (last (y :: l) d).
  now rewrite !IH.
Qed.

Lemma scan_rows_overwrites (sc : Scanner) (decode : list SqlValue -> Z)
  (rows : list (list SqlValue)) :
  (forall row s, In row rows -> sc row (DestSequence s) = (None, DestSequence (decode row))) ->
  forall s,
    scan_rows sc rows (DestSequence s)
    = (None, DestSequence (last (map decode rows) s)).
Proof.
  induction rows as [|row rows IH]; intros Hsc s; [reflexivity|].
  cbn [scan_rows map]. rewrite (Hsc row s (or_introl eq_refl)).
  rewrite IH by (intros r s' Hr; apply Hsc; now right).
  now rewrite last_cons_default.
Qed.

(** X19: [LatestSequence] returns the sequence 0 with every error, whatever
    the builder, the client and the query; with an empty result set it
    returns 0 and no error; and with a decoder that stores the sequence of a
    row it returns, as a [uint64], the sequence of the last row of the
    result set. *)
Theorem LatestSequence_result
  (build : SearchQuery -> string * list SqlValue * Scanner)
  (client : Client) (sq : SearchQuery) :
  (forall v e io, LatestSequence build client sq = (v, Some e, io) -> v = 0%Z) /\
  (forall q values sc,
      build sq = (q, values, sc) -> q <> ""%string -> client q values = inl [] ->
      LatestSequence build client sq = (0%Z, None, [(q, values)])) /\
  (forall q values sc rows decode,
      build sq = (q, values, sc) -> q <> ""%string -> client q values = inl rows ->
      (forall row s,
          In row rows -> sc row (DestSequence s) = (None, DestSequence (decode row))) ->
      LatestSequence build client sq
      = (to_uint64 (last (map decode rows) 0%Z), None, [(q, values)])).
Proof.
  split; [|split].
  - intros v e io. unfold LatestSequence.
    destruct (query build client sq (DestSequence 0)) as [[failure dest] io'].
    destruct failure; intros HL; [now injection HL | discriminate HL].
  - intros q values sc Hb Hq Hc. apply String.eqb_neq in Hq.
    unfold LatestSequence, query. rewrite Hb, Hq, Hc. reflexivity.
  - intros q values sc rows decode Hb Hq Hc Hsc. apply String.eqb_neq in Hq.
    unfold LatestSequence, query. rewrite Hb, Hq, Hc.
    rewrite (scan_rows_overwrites sc decode rows Hsc 0%Z). reflexivity.
Qed.

(** The error of an empty statement comes with the sequence 0, and the last
    of the rows 4, 2 gives the sequence 2. *)
Lemma LatestSequence_result_witness :
  fst (fst (LatestSequence (fun _ => (""%string, [], sample_scanner))
              (rows_client [[VInt 4]]) any_query)) = 0%Z /\
  LatestSequence sample_builder (rows_client [[VInt 4]; [VInt 2]]) any_query
  = (2%Z, None, [("SELECT event_sequence FROM eventstore.events"%string, [])]).
Proof.
  split.
  - destruct (LatestSequence_result (fun _ => (""%string, [], sample_scanner))
                (rows_client [[VInt 4]]) any_query) as (Herr & _).
    apply (Herr _ (ThrowInvalidArgument None "SQL-rWeBw" "invalid query factory") []).
    reflexivity.
  - destruct (LatestSequence_result sample_builder (rows_client [[VInt 4]; [VInt 2]])
                any_query) as (_ & _ & Hrows).
    apply (Hrows _ _ _ [[VInt 4]; [VInt 2]] sequence_of_row eq_refl).
    + discriminate.
    + reflexivity.
    + intros row s [<-|[<-|[]]]; reflexivity.
Defined.
